(** * ClawX workspace context synchronizer

    A shallow embedding of [electron/utils/openclaw-workspace.ts]:
    the marker-delimited section merge ([mergeClawXSection]), the hollow
    bootstrap repair ([repairClawXOnlyBootstrapFiles]), the workspace
    discovery ([resolveAllWorkspaceDirs]) and the synchronisation pass
    ([ensureClawXContext]).

    JavaScript strings are sequences of UTF-16 code units; they are
    embedded as lists of code units, so that [trim], [indexOf] and
    [slice] count exactly what the program counts. *)

From Stdlib Require Import String Ascii.
From stdpp Require Import base numbers list option gmap.

(** ** JavaScript strings *)

Module JsString.

(** A code unit.  Real strings only hold values below 2^16; every theorem
    below is proved for all lists and so covers them. *)
Abbreviation char := N.
Abbreviation jsstring := (list N).

(** A string literal of the source, read as its code units. *)
Definition js (s : string) : jsstring :=
  map N_of_ascii (list_ascii_of_string s).
Arguments js s%_string.

(** ["\n"] *)
Definition nl : jsstring := [10%N].

(** The [length] property. *)
Definition len (s : jsstring) : Z := Z.of_nat (length s).

(** ECMAScript WhiteSpace and LineTerminator code points: what
    [String.prototype.trim] and [trimEnd] strip. *)
Definition isWhiteSpace (c : char) : bool :=
  ((9 <=? c) && (c <=? 13) ||
   (c =? 32) || (c =? 160) || (c =? 5760) ||
   (8192 <=? c) && (c <=? 8202) ||
   (c =? 8232) || (c =? 8233) || (c =? 8239) || (c =? 8287) ||
   (c =? 12288) || (c =? 65279))%N.

Fixpoint trimStart (s : jsstring) : jsstring :=
  match s with
  | [] => []
  | c :: r => if isWhiteSpace c then trimStart r else s
  end.

Definition trimEnd (s : jsstring) : jsstring :=
  reverse (trimStart (reverse s)).

Definition trim (s : jsstring) : jsstring := trimEnd (trimStart s).

(** [s.startsWith(m)] *)
Fixpoint startsWith (s m : jsstring) {struct m} : bool :=
  match m, s with
  | [], _ => true
  | _ :: _, [] => false
  | x :: m', y :: s' => (x =? y)%N && startsWith s' m'
  end.

(** [s.endsWith(m)] *)
Definition endsWith (s m : jsstring) : bool :=
  startsWith (reverse s) (reverse m).

(** Position of the first occurrence of [m] in [s], scanning from the
    left; the empty needle is found at 0, as in JavaScript. *)
Fixpoint search (m s : jsstring) : option nat :=
  if startsWith s m then Some 0%nat
  else match s with
       | [] => None
       | _ :: r => S <$> search m r
       end.

(** [s.indexOf(m)]: the index of the first occurrence, or -1. *)
Definition indexOf (s m : jsstring) : Z :=
  match search m s with
  | Some i => Z.of_nat i
  | None => -1
  end.

(** [s.includes(m)] *)
Definition includes (s m : jsstring) : bool := negb (indexOf s m =? -1)%Z.

(** [s.slice(start, end)]: negative positions count from the end and
    both are clamped to the string. *)
Definition slice (s : jsstring) (start stop : Z) : jsstring :=
  let n := len s in
  let from := if (start <? 0)%Z then Z.max (n + start) 0 else Z.min start n in
  let to := if (stop <? 0)%Z then Z.max (n + stop) 0 else Z.min stop n in
  take (Z.to_nat (to - from)) (drop (Z.to_nat from) s).

(** [s.slice(start)] *)
Definition sliceFrom (s : jsstring) (start : Z) : jsstring :=
  slice s start (len s).

(** The replacement text of [String.prototype.replace] (GetSubstitution)
    for a match without capture groups: [$$], [$&], [$`] and [$'] are
    expanded, every other character is copied. *)
Fixpoint getSubstitution (matched before after repl : jsstring) : jsstring :=
  match repl with
  | [] => []
  | c :: r =>
      if (c =? 36)%N then
        match r with
        | d :: r' =>
            if (d =? 36)%N then 36%N :: getSubstitution matched before after r'
            else if (d =? 38)%N then matched ++ getSubstitution matched before after r'
            else if (d =? 96)%N then before ++ getSubstitution matched before after r'
            else if (d =? 39)%N then after ++ getSubstitution matched before after r'
            else c :: getSubstitution matched before after r
        | [] => [c]
        end
      else c :: getSubstitution matched before after r
  end.

(** [s.replace(pat, repl)] with a string pattern: only the first
    occurrence is replaced. *)
Definition replace (s pat repl : jsstring) : jsstring :=
  match search pat s with
  | None => s
  | Some i =>
      let before := take i s in
      let after := drop (i + length pat) s in
      before ++ getSubstitution pat before after repl ++ after
  end.

(** [s.replace(/^~/, repl)] *)
Definition replaceLeadingTilde (s repl : jsstring) : jsstring :=
  match s with
  | c :: after =>
      if (c =? 126)%N then getSubstitution [c] [] after repl ++ after else s
  | [] => s
  end.

End JsString.
Export JsString.

(** ** The section merger *)

Definition CLAWX_BEGIN : jsstring := js "<!-- clawx:begin -->".
Definition CLAWX_END : jsstring := js "<!-- clawx:end -->".

(** The canonical wrapped section built on the first line of
    [mergeClawXSection]. *)
Definition wrapped (section : jsstring) : jsstring :=
  CLAWX_BEGIN ++ nl ++ trim section ++ nl ++ CLAWX_END.

Definition mergeClawXSection (existing section : jsstring) : jsstring :=
  let beginIdx := indexOf existing CLAWX_BEGIN in
  let endIdx := indexOf existing CLAWX_END in
  if negb (beginIdx =? -1)%Z && negb (endIdx =? -1)%Z then
    slice existing 0 beginIdx ++ wrapped section
      ++ sliceFrom existing (endIdx + len CLAWX_END)
  else
    trimEnd existing ++ nl ++ nl ++ wrapped section ++ nl.

(** The test made on each document by [repairClawXOnlyBootstrapFiles]
    before it unlinks the file (the body of its inner loop between the
    read and the unlink). *)
Definition isHollowBootstrap (content : jsstring) : bool :=
  let beginIdx := indexOf content CLAWX_BEGIN in
  let endIdx := indexOf content CLAWX_END in
  if (beginIdx =? -1)%Z || (endIdx =? -1)%Z then false
  else
    let before := trim (slice content 0 beginIdx) in
    let after := trim (sliceFrom content (endIdx + len CLAWX_END)) in
    bool_decide (before = []) && bool_decide (after = []).

(** ** The host platform

    What the module imports and does not define: [path.join],
    [os.homedir], [getResourcesDir] of [./paths] and [JSON.parse].  They
    are parameters, so that every theorem holds whatever they compute.
    [JSON_parse] answers [None] where [JSON.parse] throws a SyntaxError.
    [mkdirAllowed] stands for everything that makes a recursive [mkdirSync]
    fail (an ancestor that is a file, a read-only parent). *)

#[local] Unset Elimination Schemes.
Inductive json :=
  | JNull
  | JBool (b : bool)
  | JNumber (literal : jsstring)
  | JString (s : jsstring)
  | JArray (items : list json)
  | JObject (fields : list (jsstring * json)).
#[local] Set Elimination Schemes.

Class Platform := {
  join : jsstring → jsstring → jsstring;
  homedir : jsstring;
  getResourcesDir : jsstring;
  JSON_parse : jsstring → option json;
  mkdirAllowed : jsstring → bool;
}.

(** [v?.key] for the keys read by the module ([agents], [defaults],
    [list], [workspace]): only an object can carry them; [null],
    [undefined], strings, numbers, booleans and arrays give [undefined],
    which is [None] here. *)
Fixpoint field (key : jsstring) (fields : list (jsstring * json)) : option json :=
  match fields with
  | [] => None
  | (k, v) :: r => if bool_decide (k = key) then Some v else field key r
  end.

Definition prop (v : option json) (key : jsstring) : option json :=
  match v with
  | Some (JObject fields) => field key fields
  | _ => None
  end.

(** ** The file system

    A disk maps a path, as the program spells it, to what is found
    there: a file with its text (what [readFileSync(p, 'utf-8')] gives
    and [writeFileSync(p, text, 'utf-8')] stores), a directory with the
    entries [readdirSync] lists, or [Denied], a node that exists but
    whose every access is refused.  Two spellings of one path are two
    keys, and a directory keeps the listing it had when the run started:
    the operations below do not edit the listing of a parent directory. *)

Record dirent := { d_name : jsstring; d_isDirectory : bool }.

Inductive node :=
  | File (content : jsstring)
  | Dir (entries : list dirent)
  | Denied.

Abbreviation disk_t := (gmap jsstring node).

Inductive exn := ENOENT | EISDIR | ENOTDIR | EEXIST | EACCES | SyntaxError.

Inductive result (A : Type) :=
  | Ok (a : A)
  | Throw (e : exn).
Arguments Ok {A} a.
Arguments Throw {A} e.

Inductive level := Debug | Info | Warn.

(** What a run does to the outside world, in order. *)
Inductive event :=
  | Wrote (path content : jsstring)
  | MadeDir (path : jsstring)
  | Unlinked (path : jsstring)
  | Logged (l : level) (message : jsstring).

Record outcome (A : Type) := Outcome {
  res : result A;
  disk : disk_t;
  events : list event;
}.
Arguments Outcome {A} res disk events.
Arguments res {A} o.
Arguments disk {A} o.
Arguments events {A} o.

(** Synchronous code over the disk: a computation takes the disk and
    gives a value or a thrown exception, the disk it leaves and the
    events it caused.  An exception keeps the effects made before it. *)
Definition M (A : Type) : Type := disk_t → outcome A.

#[export] Instance M_ret : MRet M := λ A a fs, Outcome (Ok a) fs [].

#[export] Instance M_bind : MBind M := λ A B f m fs,
  let o := m fs in
  match res o with
  | Ok a => let o' := f a (disk o) in
            Outcome (res o') (disk o') (events o ++ events o')
  | Throw e => Outcome (Throw e) (disk o) (events o)
  end.

Definition throw {A} (e : exn) : M A := λ fs, Outcome (Throw e) fs [].

(** [try { body } catch { handler }] *)
Definition try_catch {A} (body : M A) (handler : exn → M A) : M A := λ fs,
  let o := body fs in
  match res o with
  | Ok _ => o
  | Throw e => let o' := handler e (disk o) in
               Outcome (res o') (disk o') (events o ++ events o')
  end.

(** [for (const x of l) { body }] *)
Fixpoint forEach {A} (l : list A) (body : A → M unit) : M unit :=
  match l with
  | [] => mret tt
  | x :: r => body x ≫= λ _, forEach r body
  end.

Definition emit (e : event) : M unit := λ fs, Outcome (Ok tt) fs [e].

Definition logger_debug (msg : jsstring) : M unit := emit (Logged Debug msg).
Definition logger_info (msg : jsstring) : M unit := emit (Logged Info msg).
Definition logger_warn (msg : jsstring) : M unit := emit (Logged Warn msg).

Definition existsSync (p : jsstring) : M bool := λ fs,
  Outcome (Ok (match fs !! p with Some _ => true | None => false end)) fs [].

Definition readFileSync (p : jsstring) : M jsstring := λ fs,
  match fs !! p with
  | Some (File c) => Outcome (Ok c) fs []
  | Some (Dir _) => Outcome (Throw EISDIR) fs []
  | Some Denied => Outcome (Throw EACCES) fs []
  | None => Outcome (Throw ENOENT) fs []
  end.

(** [writeFileSync] replaces the content of a file and creates the file
    when nothing is there. *)
Definition writeFileSync (p content : jsstring) : M unit := λ fs,
  match fs !! p with
  | Some (Dir _) => Outcome (Throw EISDIR) fs []
  | Some Denied => Outcome (Throw EACCES) fs []
  | Some (File _) | None =>
      Outcome (Ok tt) (<[p := File content]> fs) [Wrote p content]
  end.

(** [readdirSync(p, { withFileTypes: true })] *)
Definition readdirSyncWithFileTypes (p : jsstring) : M (list dirent) := λ fs,
  match fs !! p with
  | Some (Dir entries) => Outcome (Ok entries) fs []
  | Some (File _) => Outcome (Throw ENOTDIR) fs []
  | Some Denied => Outcome (Throw EACCES) fs []
  | None => Outcome (Throw ENOENT) fs []
  end.

(** [readdirSync(p)] *)
Definition readdirSync (p : jsstring) : M (list jsstring) :=
  entries ← readdirSyncWithFileTypes p; mret (d_name <$> entries).

(** [mkdirSync(p, { recursive: true })] *)
Definition mkdirSync `{Platform} (p : jsstring) : M unit := λ fs,
  match fs !! p with
  | Some (Dir _) => Outcome (Ok tt) fs []
  | Some (File _) => Outcome (Throw EEXIST) fs []
  | Some Denied => Outcome (Throw EACCES) fs []
  | None =>
      if mkdirAllowed p then Outcome (Ok tt) (<[p := Dir []]> fs) [MadeDir p]
      else Outcome (Throw EACCES) fs []
  end.

Definition unlinkSync (p : jsstring) : M unit := λ fs,
  match fs !! p with
  | Some (File _) => Outcome (Ok tt) (delete p fs) [Unlinked p]
  | Some (Dir _) => Outcome (Throw EISDIR) fs []
  | Some Denied => Outcome (Throw EACCES) fs []
  | None => Outcome (Throw ENOENT) fs []
  end.

(** [JSON.parse(text)] *)
Definition parseJSON `{Platform} (text : jsstring) : M json :=
  match JSON_parse text with
  | Some v => mret v
  | None => throw SyntaxError
  end.

(** ** Workspace discovery *)

(** [new Set<string>()] keeps its members in insertion order, which is
    the order of [[...dirs]]. *)
Definition set_add (x : jsstring) (dirs : list jsstring) : list jsstring :=
  if bool_decide (x ∈ dirs) then dirs else dirs ++ [x].

(** A non-empty string is truthy. *)
Definition truthy (s : jsstring) : bool :=
  match s with [] => false | _ :: _ => true end.

Section Workspace.
Context `{Platform}.

(** [if (typeof ws === 'string' && ws.trim())
      dirs.add(ws.replace(/^~/, homedir()))],
    the statement applied to the default workspace and to each agent's. *)
Definition addWorkspace (ws : option json) (dirs : list jsstring)
  : list jsstring :=
  match ws with
  | Some (JString w) =>
      if truthy (trim w) then set_add (replaceLeadingTilde w homedir) dirs
      else dirs
  | _ => dirs
  end.

(** The first [try] block of [resolveAllWorkspaceDirs].  Whatever
    throws in it (the read, the parse) throws before the first
    [dirs.add], so the handler finds the set as it was. *)
Definition workspacesFromConfig (openclawDir : jsstring)
    (dirs : list jsstring) : M (list jsstring) :=
  let configPath := join openclawDir (js "openclaw.json") in
  try_catch
    (present ← existsSync configPath;
     if present : bool then
       text ← readFileSync configPath;
       config ← parseJSON text;
       let defaultWs :=
         prop (prop (prop (Some config) (js "agents")) (js "defaults"))
              (js "workspace") in
       let dirs := addWorkspace defaultWs dirs in
       let agents := prop (prop (Some config) (js "agents")) (js "list") in
       match agents with
       | Some (JArray agents) =>
           mret (foldl (λ dirs agent,
                          addWorkspace (prop (Some agent) (js "workspace")) dirs)
                       dirs agents)
       | _ => mret dirs
       end
     else mret dirs)
    (λ _, mret dirs).

(** The second [try] block: the scan of [~/.openclaw]. *)
Definition workspacesFromScan (openclawDir : jsstring)
    (dirs : list jsstring) : M (list jsstring) :=
  try_catch
    (entries ← readdirSyncWithFileTypes openclawDir;
     mret (foldl (λ dirs entry,
                    if d_isDirectory entry
                       && startsWith (d_name entry) (js "workspace")
                    then set_add (join openclawDir (d_name entry)) dirs
                    else dirs)
                 dirs entries))
    (λ _, mret dirs).

Definition resolveAllWorkspaceDirs : M (list jsstring) :=
  let openclawDir := join homedir (js ".openclaw") in
  let dirs := [] in
  dirs ← workspacesFromConfig openclawDir dirs;
  dirs ← workspacesFromScan openclawDir dirs;
  let dirs :=
    if bool_decide (length dirs = 0)
    then set_add (join openclawDir (js "workspace")) dirs
    else dirs in
  mret dirs.

(** ** Hollow bootstrap repair *)

(** The body of the inner loop of [repairClawXOnlyBootstrapFiles]. *)
Definition repairFile (workspaceDir file : jsstring) : M unit :=
  let filePath := join workspaceDir file in
  r ← try_catch (content ← readFileSync filePath; mret (Some content))
                (λ _, mret None);
  match r with
  | None => mret tt
  | Some content =>
      if isHollowBootstrap content then
        try_catch
          (unlinkSync filePath ;;
           logger_info
             (js "Removed ClawX-only bootstrap file for re-seeding: "
                ++ file ++ js " (" ++ workspaceDir ++ js ")"))
          (λ _, logger_warn
                  (js "Failed to remove ClawX-only bootstrap file: "
                     ++ filePath))
      else mret tt
  end.

Definition repairClawXOnlyBootstrapFiles : M unit :=
  workspaceDirs ← resolveAllWorkspaceDirs;
  forEach workspaceDirs (λ workspaceDir,
    present ← existsSync workspaceDir;
    if negb present then mret tt
    else
      r ← try_catch
            (names ← readdirSync workspaceDir;
             mret (Some (filter (λ f, endsWith f (js ".md") = true) names)))
            (λ _, mret None);
      match r with
      | None => mret tt
      | Some entries => forEach entries (repairFile workspaceDir)
      end).

(** ** Context synchronisation *)

(** [file.replace('.clawx.md', '.md')] *)
Definition targetName (file : jsstring) : jsstring :=
  replace file (js ".clawx.md") (js ".md").

(** The body of the inner loop of [ensureClawXContext]: one template,
    one workspace. *)
Definition mergeTemplate (contextDir workspaceDir file : jsstring) : M unit :=
  let targetName := targetName file in
  let targetPath := join workspaceDir targetName in
  present ← existsSync targetPath;
  if negb present then
    logger_debug
      (js "Skipping " ++ targetName ++ js " in " ++ workspaceDir
         ++ js " (file does not exist yet, will be seeded by gateway)")
  else
    section ← readFileSync (join contextDir file);
    existing ← readFileSync targetPath;
    let merged := mergeClawXSection existing section in
    if negb (bool_decide (merged = existing)) then
      writeFileSync targetPath merged ;;
      logger_info
        (js "Merged ClawX context into " ++ targetName ++ js " ("
           ++ workspaceDir ++ js ")")
    else mret tt.

(** The body of the outer loop. *)
Definition syncWorkspace (contextDir : jsstring) (files : list jsstring)
    (workspaceDir : jsstring) : M unit :=
  present ← existsSync workspaceDir;
  (if negb present then mkdirSync workspaceDir else mret tt) ;;
  forEach files (mergeTemplate contextDir workspaceDir).

Definition ensureClawXContext : M unit :=
  let contextDir := join getResourcesDir (js "context") in
  present ← existsSync contextDir;
  if negb present then
    logger_debug
      (js "ClawX context directory not found, skipping context merge")
  else
    r ← try_catch
          (names ← readdirSync contextDir;
           mret (Some (filter (λ f, endsWith f (js ".clawx.md") = true) names)))
          (λ _, mret None);
    match r with
    | None => mret tt
    | Some files =>
        workspaceDirs ← resolveAllWorkspaceDirs;
        forEach workspaceDirs (syncWorkspace contextDir files)
    end.

End Workspace.

(** ** Proxy helpers ([electron/utils/proxy.ts]) *)

Module Proxy.

Record ProxySettings := {
  proxyEnabled : bool;
  proxyServer : jsstring;
  proxyHttpServer : jsstring;
  proxyHttpsServer : jsstring;
  proxyAllServer : jsstring;
  proxyBypassRules : jsstring;
}.

Record ResolvedProxySettings := {
  httpProxy : jsstring;
  httpsProxy : jsstring;
  allProxy : jsstring;
  bypassRules : jsstring;
}.

Inductive ProxyMode := direct | fixed_servers.

(** [ElectronProxyConfig]; an optional property that is absent is [None]. *)
Record ElectronProxyConfig := {
  mode : ProxyMode;
  proxyRules : option jsstring;
  electronBypassRules : option jsstring;   (* proxyBypassRules *)
}.

(** The record returned by [buildProxyEnv]. *)
Record ProxyEnv := {
  HTTP_PROXY : jsstring;
  HTTPS_PROXY : jsstring;
  ALL_PROXY : jsstring;
  http_proxy : jsstring;
  https_proxy : jsstring;
  all_proxy : jsstring;
  NO_PROXY : jsstring;
  no_proxy : jsstring;
}.

(** [undefined] and [null] are [None]. *)
Definition trimValue (value : option jsstring) : jsstring :=
  match value with
  | Some s => trim s
  | None => []
  end.

(** The classes of [/^[a-z][a-z0-9+.-]*:\/\//i].  Without the [u] flag
    the [i] flag never lets a character above 127 match an ASCII letter,
    so [[a-z]] is exactly the ASCII letters of both cases. *)
Definition isAsciiLetter (c : char) : bool :=
  ((65 <=? c) && (c <=? 90) || (97 <=? c) && (c <=? 122))%N.

Definition isSchemeChar (c : char) : bool :=
  (isAsciiLetter c || (48 <=? c) && (c <=? 57)
   || (c =? 43) || (c =? 46) || (c =? 45))%N.

(** What [[a-z0-9+.-]*] leaves: the star is followed by [:], which is
    not in the class, so a match must take the whole run. *)
Fixpoint skipSchemeChars (s : jsstring) : jsstring :=
  match s with
  | [] => []
  | c :: r => if isSchemeChar c then skipSchemeChars r else s
  end.

(** [/^[a-z][a-z0-9+.-]*:\/\//i.test(value)] *)
Definition hasScheme (value : jsstring) : bool :=
  match value with
  | [] => false
  | c :: r => isAsciiLetter c && startsWith (skipSchemeChars r) (js "://")
  end.

Definition normalizeProxyServer (proxyServer : jsstring) : jsstring :=
  let value := trimValue (Some proxyServer) in
  if negb (truthy value) then []
  else if hasScheme value then value
  else js "http://" ++ value.

(** [a || b] on strings. *)
Definition or_else (a b : jsstring) : jsstring := if truthy a then a else b.

Definition resolveProxySettings (settings : ProxySettings)
  : ResolvedProxySettings :=
  let legacyProxy := normalizeProxyServer (proxyServer settings) in
  let allProxy := normalizeProxyServer (proxyAllServer settings) in
  let httpProxy :=
    or_else (or_else (normalizeProxyServer (proxyHttpServer settings))
               legacyProxy) allProxy in
  let httpsProxy :=
    or_else (or_else (normalizeProxyServer (proxyHttpsServer settings))
               legacyProxy) allProxy in
  {| httpProxy := httpProxy;
     httpsProxy := httpsProxy;
     allProxy := or_else allProxy legacyProxy;
     bypassRules := trimValue (Some (proxyBypassRules settings)) |}.

(** [parts.join(sep)] *)
Fixpoint joinWith (sep : jsstring) (parts : list jsstring) : jsstring :=
  match parts with
  | [] => []
  | [x] => x
  | x :: r => x ++ sep ++ joinWith sep r
  end.

Definition buildElectronProxyConfig (settings : ProxySettings)
  : ElectronProxyConfig :=
  if negb (proxyEnabled settings) then
    {| mode := direct; proxyRules := None; electronBypassRules := None |}
  else
    let resolved := resolveProxySettings settings in
    let rules := [] in
    let rules :=
      if truthy (httpProxy resolved)
      then rules ++ [js "http=" ++ httpProxy resolved] else rules in
    let rules :=
      if truthy (httpsProxy resolved)
      then rules ++ [js "https=" ++ httpsProxy resolved] else rules in
    let fallbackProxy :=
      or_else (or_else (allProxy resolved) (httpsProxy resolved))
        (httpProxy resolved) in
    let rules :=
      if truthy fallbackProxy then rules ++ [fallbackProxy] else rules in
    if bool_decide (length rules = 0) then
      {| mode := direct; proxyRules := None; electronBypassRules := None |}
    else
      {| mode := fixed_servers;
         proxyRules := Some (joinWith (js ";") rules);
         electronBypassRules :=
           if truthy (bypassRules resolved) then Some (bypassRules resolved)
           else None |}.

(** The separators of [/[,\n;]/]. *)
Definition isRuleSeparator (c : char) : bool :=
  ((c =? 44) || (c =? 10) || (c =? 59))%N.

(** [s.split(/[,\n;]/)]: the pieces between separators, empty pieces
    included; the empty string gives one empty piece. *)
Fixpoint splitRules (s : jsstring) : list jsstring :=
  match s with
  | [] => [[]]
  | c :: r =>
      if isRuleSeparator c then [] :: splitRules r
      else match splitRules r with
           | piece :: pieces => (c :: piece) :: pieces
           | [] => [[c]]
           end
  end.

(** The [NO_PROXY] value built from the bypass rules. *)
Definition noProxyOf (rules : jsstring) : jsstring :=
  joinWith (js ",")
    (filter (λ rule, truthy rule = true) (trim <$> splitRules rules)).

Definition buildProxyEnv (settings : ProxySettings) : ProxyEnv :=
  let blank :=
    {| HTTP_PROXY := []; HTTPS_PROXY := []; ALL_PROXY := [];
       http_proxy := []; https_proxy := []; all_proxy := [];
       NO_PROXY := []; no_proxy := [] |} in
  if negb (proxyEnabled settings) then blank
  else
    let resolved := resolveProxySettings settings in
    let noProxy := noProxyOf (bypassRules resolved) in
    {| HTTP_PROXY := httpProxy resolved;
       HTTPS_PROXY := httpsProxy resolved;
       ALL_PROXY := allProxy resolved;
       http_proxy := httpProxy resolved;
       https_proxy := httpsProxy resolved;
       all_proxy := allProxy resolved;
       NO_PROXY := noProxy;
       no_proxy := noProxy |}.

End Proxy.

(** ** Paging of the usage history ([src/pages/Dashboard/index.tsx]) *)

Module Dashboard.

(** [array.slice(start, end)], with the clamping of [String.prototype.slice]. *)
Definition arraySlice {A} (l : list A) (start stop : Z) : list A :=
  let n := Z.of_nat (length l) in
  let from := if (start <? 0)%Z then Z.max (n + start) 0 else Z.min start n in
  let to := if (stop <? 0)%Z then Z.max (n + stop) 0 else Z.min stop n in
  take (Z.to_nat (to - from)) (drop (Z.to_nat from) l).

Definition usagePageSize : Z := 5.

(** [Math.ceil(a / b)] for a length [a] and a positive integer [b]: the
    quotient of two such integers is far enough from the next integer
    for the rounding of the division not to matter. *)
Definition ceilDiv (a b : Z) : Z := (- ((- a) / b))%Z.

(** [Math.max(1, Math.ceil(filteredUsageHistory.length / usagePageSize))] *)
Definition usageTotalPages {A} (filteredUsageHistory : list A) : Z :=
  Z.max 1 (ceilDiv (Z.of_nat (length filteredUsageHistory)) usagePageSize).

(** [Math.min(usagePage, usageTotalPages)] *)
Definition safeUsagePage {A} (filteredUsageHistory : list A) (usagePage : Z)
  : Z :=
  Z.min usagePage (usageTotalPages filteredUsageHistory).

Definition pagedUsageHistory {A} (filteredUsageHistory : list A)
    (usagePage : Z) : list A :=
  let safeUsagePage := safeUsagePage filteredUsageHistory usagePage in
  arraySlice filteredUsageHistory
    ((safeUsagePage - 1) * usagePageSize) (safeUsagePage * usagePageSize).

(** The two page buttons: [Math.max(1, page - 1)] and
    [Math.min(usageTotalPages, page + 1)]. *)
Definition previousPage (page : Z) : Z := Z.max 1 (page - 1).

Definition nextPage {A} (filteredUsageHistory : list A) (page : Z) : Z :=
  Z.min (usageTotalPages filteredUsageHistory) (page + 1).

End Dashboard.

(** ** Session files of the token usage history *)

Module TokenUsage.

(** The test of [listRecentSessionFiles] on a directory entry:
    [!fileName.endsWith('.jsonl') || fileName.includes('.deleted.')]
    skips the entry. *)
Definition isSessionFile (fileName : jsstring) : bool :=
  negb (negb (endsWith fileName (js ".jsonl"))
        || includes fileName (js ".deleted.")).

(** [fileName.replace(/\.jsonl$/, '')]: the pattern is tried at each
    position from the left and matches where what is left of the name is
    exactly [.jsonl]. *)
Fixpoint sessionIdOf (fileName : jsstring) : jsstring :=
  if bool_decide (fileName = js ".jsonl") then []
  else match fileName with
       | [] => []
       | c :: r => c :: sessionIdOf r
       end.

End TokenUsage.

(* ================================================================= *)
(** * Vocabulary of the statements *)

(** ** Occurrences *)

(** [m] occurs in [s] at position [i]. *)
Definition occ (m s : jsstring) (i : nat) : Prop :=
  ∃ a b, s = a ++ m ++ b ∧ length a = i.

(** The first occurrence of [m] in [s] is at position [i]. *)
Definition first_at (m s : jsstring) (i : nat) : Prop :=
  occ m s i ∧ ∀ j, j < i → ¬ occ m s j.

(** Neither ["<"] nor a line feed occurs in a marker after its first
    character, so a marker can never run over a seam that starts with
    one of them. *)
Definition seam_safe (x : char) : Prop :=
  (x ∉ tail CLAWX_BEGIN) ∧ (x ∉ tail CLAWX_END).

(** The markers of a document are in order when it holds neither of
    them, or when its first begin marker comes before its first end
    marker. *)
Definition markers_in_order (d : jsstring) : Prop :=
  (search CLAWX_BEGIN d = None ∧ search CLAWX_END d = None)
  ∨ (∃ b e, search CLAWX_BEGIN d = Some b ∧ search CLAWX_END d = Some e
            ∧ b < e).

(** ** Runs *)

(** The contents handed to [writeFileSync] during a run. *)
Definition writes (evs : list event) : list (jsstring * jsstring) :=
  omap (λ e, match e with Wrote p c => Some (p, c) | _ => None end) evs.

Definition is_file (o : option node) : Prop := ∃ c, o = Some (File c).

(** What may happen at one path when no document is created: nothing,
    a directory made where nothing was, or a file rewritten. *)
Definition node_step (o o' : option node) : Prop :=
  o' = o
  ∨ (o = None ∧ o' = Some (Dir []))
  ∨ (∃ c c', o = Some (File c) ∧ o' = Some (File c')).

Definition no_new_file (fs fs' : disk_t) : Prop :=
  ∀ p, node_step (fs !! p) (fs' !! p).

(** A computation is tame when it creates no file and only writes where
    a file already was. *)
Definition tame {A} (m : M A) : Prop :=
  ∀ fs, no_new_file fs (disk (m fs))
        ∧ ∀ p c, (p, c) ∈ writes (events (m fs)) → is_file (fs !! p).

(** Two disks hold the same files with the same contents. *)
Definition same_files (fs fs' : disk_t) : Prop :=
  ∀ p c, fs' !! p = Some (File c) ↔ fs !! p = Some (File c).

(** Started on a disk that holds the files of [fs0], the computation
    writes nothing and leaves those files as they are. *)
Definition writes_nothing_from (fs0 : disk_t) {A} (m : M A) : Prop :=
  ∀ fs, same_files fs0 fs →
        same_files fs0 (disk (m fs)) ∧ writes (events (m fs)) = [].


(** ** Discovery *)

(** Where a discovered path comes from: a configured workspace string
    with its leading [~] expanded, or an entry joined to the base
    directory. *)
Definition origin `{Platform} (openclawDir d : jsstring) : Prop :=
  (∃ w, d = replaceLeadingTilde w homedir) ∨ (∃ name, d = join openclawDir name).

Definition sound_set `{Platform} (openclawDir : jsstring)
    (dirs : list jsstring) : Prop :=
  NoDup dirs ∧ ∀ d, d ∈ dirs → origin openclawDir d.

(** A computation that leaves the disk alone, causes no event, and
    whose value, if it returns one, satisfies [P]. *)
Definition pure_with {A} (P : A → Prop) (m : M A) : Prop :=
  ∀ fs, disk (m fs) = fs ∧ events (m fs) = []
        ∧ ∀ a, res (m fs) = Ok a → P a.

(** The name the specification describes: the trailing [.clawx.md] of
    the template's file name replaced by [.md]. *)
Definition suffixSubstitution (file : jsstring) : jsstring :=
  take (length file - length (js ".clawx.md")) file ++ js ".md".


(** ** A concrete platform and concrete disks *)

Definition dq : jsstring := [34%N].

(** The text [{"agents":{"defaults":{"workspace":"work"}}}] and its value. *)
Definition demo_config_text : jsstring :=
  js "{" ++ dq ++ js "agents" ++ dq ++ js ":{" ++ dq ++ js "defaults" ++ dq
    ++ js ":{" ++ dq ++ js "workspace" ++ dq ++ js ":" ++ dq ++ js "work" ++ dq
    ++ js "}}}".

Definition demo_config_value : json :=
  JObject [(js "agents",
            JObject [(js "defaults",
                      JObject [(js "workspace", JString (js "work"))])])].

(** A POSIX-like platform; its parser knows the one configuration text
    above and rejects every other text. *)
Definition demo : Platform := {|
  join a b := a ++ js "/" ++ b;
  homedir := js "/home/u";
  getResourcesDir := js "/app/resources";
  JSON_parse text :=
    if bool_decide (text = demo_config_text) then Some demo_config_value
    else None;
  mkdirAllowed _ := true;
|}.

Definition demo_templates : list (jsstring * node) :=
  [(js "/app/resources/context",
    Dir [{| d_name := js "AGENTS.clawx.md"; d_isDirectory := false |}]);
   (js "/app/resources/context/AGENTS.clawx.md", File (js "Rules: be nice"));
   (js "/home/u/.openclaw",
    Dir [{| d_name := js "workspace"; d_isDirectory := true |}])].

(** The workspace found by the scan, holding one [AGENTS.md] with the
    given content; no configuration file. *)
Definition demo_disk (agents_md : jsstring) : disk_t :=
  list_to_map
    (demo_templates ++
     [(js "/home/u/.openclaw/workspace",
       Dir [{| d_name := js "AGENTS.md"; d_isDirectory := false |}]);
      (js "/home/u/.openclaw/workspace/AGENTS.md", File agents_md)]).

(** A workspace directory that holds no document yet. *)
Definition demo_disk_empty_workspace : disk_t :=
  list_to_map
    (demo_templates ++ [(js "/home/u/.openclaw/workspace", Dir [])]).

(** A configuration file naming the workspace [work]. *)
Definition demo_disk_configured : disk_t :=
  list_to_map
    [(js "/home/u/.openclaw",
      Dir [{| d_name := js "openclaw.json"; d_isDirectory := false |}]);
     (js "/home/u/.openclaw/openclaw.json", File demo_config_text)].



(** ** Trimmed strings and rule lists *)

(** A string that does not start with white space. *)
Definition starts_tight (s : jsstring) : Prop :=
  match s with
  | [] => True
  | c :: _ => isWhiteSpace c = false
  end.

(** A string that does not end with white space. *)
Definition ends_tight (s : jsstring) : Prop := starts_tight (reverse s).


(** The four server fields of the settings are blank. *)
Definition no_server (st : Proxy.ProxySettings) : Prop :=
  trim (Proxy.proxyServer st) = []
  ∧ trim (Proxy.proxyHttpServer st) = []
  ∧ trim (Proxy.proxyHttpsServer st) = []
  ∧ trim (Proxy.proxyAllServer st) = [].

(** ** Loop bodies and blocks, named *)

Section Named.
Context `{Platform}.

(** The body of the outer loop of [repairClawXOnlyBootstrapFiles]. *)
Definition repairWorkspace (workspaceDir : jsstring) : M unit :=
  present ← existsSync workspaceDir;
  if negb present then mret tt
  else
    r ← try_catch
          (names ← readdirSync workspaceDir;
           mret (Some (filter (λ f, endsWith f (js ".md") = true) names)))
          (λ _, mret None);
    match r with
    | None => mret tt
    | Some entries => forEach entries (repairFile workspaceDir)
    end.

(** What the first [try] block of [resolveAllWorkspaceDirs] adds to the
    set once the configuration is parsed. *)
Definition configuredWorkspaces (config : json) (dirs : list jsstring)
  : list jsstring :=
  let defaultWs :=
    prop (prop (prop (Some config) (js "agents")) (js "defaults"))
         (js "workspace") in
  let dirs := addWorkspace defaultWs dirs in
  let agents := prop (prop (Some config) (js "agents")) (js "list") in
  match agents with
  | Some (JArray agents) =>
      foldl (λ dirs agent,
               addWorkspace (prop (Some agent) (js "workspace")) dirs)
            dirs agents
  | _ => dirs
  end.

(** What the second [try] block adds once the directory is listed. *)
Definition scannedWorkspaces (openclawDir : jsstring) (entries : list dirent)
    (dirs : list jsstring) : list jsstring :=
  foldl (λ dirs entry,
           if d_isDirectory entry
              && startsWith (d_name entry) (js "workspace")
           then set_add (join openclawDir (d_name entry)) dirs
           else dirs)
        dirs entries.

End Named.

(** ** Relations between the disk before and after *)

(** Nothing changed but files removed, each of them hollow. *)
Definition only_unlinks_hollow (fs fs' : disk_t) : Prop :=
  ∀ p, fs' !! p = fs !! p
       ∨ (fs' !! p = None
          ∧ ∃ c, fs !! p = Some (File c) ∧ isHollowBootstrap c = true).

Definition keeps (R : disk_t → disk_t → Prop) {A} (m : M A) : Prop :=
  ∀ fs, R fs (disk (m fs)).

Definition never_throws {A} (m : M A) : Prop :=
  ∀ fs, ∃ a, res (m fs) = Ok a.

Definition emits (Q : event → Prop) {A} (m : M A) : Prop :=
  ∀ fs, Forall Q (events (m fs)).

(** An event that neither writes a file nor makes a directory. *)
Definition reads_or_unlinks (e : event) : Prop :=
  match e with
  | Wrote _ _ | MadeDir _ => False
  | Unlinked _ | Logged _ _ => True
  end.



(* ================================================================= *)
(** * Properties *)

(** ** Occurrences of a needle in a string *)

Section Occurrences.
Implicit Types (m s a b : jsstring) (i j k : nat).

Lemma startsWith_spec s m : startsWith s m = true ↔ ∃ b, s = m ++ b.
Proof.
  revert s. induction m as [|x m IH]; intros s; simpl.
  - destruct s; (split; [intros _; by eexists | done]).
  - destruct s as [|y s].
    + split; [done | intros [b Hb]; discriminate].
    + simpl. rewrite andb_true_iff, N.eqb_eq, IH. split.
      * intros [-> [b ->]]. by exists b.
      * intros [b Hb]. simplify_eq/=. eauto.
Qed.

Lemma startsWith_app m b : startsWith (m ++ b) m = true.
Proof. apply startsWith_spec. by exists b. Qed.

Lemma occ_0 m s : occ m s 0 ↔ startsWith s m = true.
Proof.
  rewrite startsWith_spec. split.
  - intros (a & b & -> & Ha). apply nil_length_inv in Ha as ->. by exists b.
  - intros [b ->]. by exists [], b.
Qed.

Lemma occ_S m c s j : occ m (c :: s) (S j) ↔ occ m s j.
Proof.
  split.
  - intros (a & b & Hs & Ha). destruct a as [|c' a]; [done|].
    simplify_eq/=. by exists a, b.
  - intros (a & b & -> & <-). by exists (c :: a), b.
Qed.

Lemma occ_bound m s i : occ m s i → i + length m ≤ length s.
Proof. intros (a & b & -> & <-). rewrite !length_app. lia. Qed.

Lemma occ_app_l m a t i : occ m a i → occ m (a ++ t) i.
Proof.
  intros (p & q & -> & <-). exists p, (q ++ t). by rewrite <-!(assoc_L (++)).
Qed.

Lemma occ_app_r m a t i : occ m t i → occ m (a ++ t) (length a + i).
Proof.
  intros (p & q & -> & <-). exists (a ++ p), q.
  by rewrite length_app, <-(assoc_L (++)).
Qed.

Lemma search_unfold m s :
  search m s
  = if startsWith s m then Some 0
    else match s with [] => None | _ :: r => S <$> search m r end.
Proof. by destruct s. Qed.

Lemma search_Some m s i : search m s = Some i → first_at m s i.
Proof.
  revert i. induction s as [|c s IH]; intros i; rewrite search_unfold.
  - destruct (startsWith [] m) eqn:Hp; [|done].
    intros [= <-]. split; [by apply occ_0 | intros j Hj; lia].
  - destruct (startsWith (c :: s) m) eqn:Hp.
    + intros [= <-]. split; [by apply occ_0 | intros j Hj; lia].
    + destruct (search m s) as [i'|] eqn:Hs; [|done].
      intros [= <-]. destruct (IH i' eq_refl) as [Ho Hmin]. split.
      * by apply occ_S.
      * intros [|j] Hj.
        -- rewrite occ_0. congruence.
        -- rewrite occ_S. apply Hmin. lia.
Qed.

Lemma search_None m s : search m s = None → ∀ j, ¬ occ m s j.
Proof.
  induction s as [|c s IH]; rewrite search_unfold.
  - destruct (startsWith [] m) eqn:Hp; [done|]. intros _ j Ho.
    pose proof (occ_bound _ _ _ Ho) as Hb.
    destruct j; [|simpl in Hb; lia]. apply occ_0 in Ho. congruence.
  - destruct (startsWith (c :: s) m) eqn:Hp; [done|].
    destruct (search m s) eqn:Hs; [done|]. intros _ [|j].
    + rewrite occ_0. congruence.
    + rewrite occ_S. by apply IH.
Qed.

Lemma first_at_unique m s i j : first_at m s i → first_at m s j → i = j.
Proof.
  intros [Hi Hni] [Hj Hnj].
  destruct (lt_eq_lt_dec i j) as [[Hlt| ->]|Hlt]; [|done|].
  - by destruct (Hnj i).
  - by destruct (Hni j).
Qed.

Lemma search_first m s i : first_at m s i → search m s = Some i.
Proof.
  intros Hf. destruct (search m s) as [j|] eqn:Hs.
  - f_equal. eapply first_at_unique; [by apply search_Some | done].
  - destruct Hf as [Ho _]. by destruct (search_None _ _ Hs i).
Qed.

Lemma search_absent m s : (∀ j, ¬ occ m s j) → search m s = None.
Proof.
  intros Hno. destruct (search m s) as [j|] eqn:Hs; [|done].
  apply search_Some in Hs as [Ho _]. by destruct (Hno j).
Qed.

(** An occurrence that starts inside [a] cannot run over the seam of
    [a ++ x :: t] when [x] does not occur in the needle after its first
    character. *)
Lemma occ_app_inv m a x t j :
  x ∉ tail m →
  occ m (a ++ x :: t) j →
  occ m a j ∨ (length a ≤ j ∧ occ m (x :: t) (j - length a)).
Proof.
  intros Hx (p & q & Heq & <-).
  apply app_eq_inv in Heq as [(l & -> & Hl)|(l & -> & Hl)].
  - (* the occurrence starts inside [a] *)
    destruct l as [|l0 l].
    { right. rewrite app_nil_r. split; [done|].
      rewrite Nat.sub_diag. exists [], q. simpl in Hl. by rewrite Hl. }
    apply app_eq_inv in Hl as [(l' & Hm & Hl')|(l' & Hm & Hl')].
    + destruct l' as [|y l'].
      * left. exists p, []. by rewrite Hm, !app_nil_r.
      * exfalso. apply Hx. rewrite Hm. simplify_eq/=.
        apply elem_of_app. right. left.
    + left. exists p, l'. by rewrite Hm.
  - right. rewrite length_app. split; [lia|].
    replace (length a + length l - length a) with (length l) by lia.
    by exists l, q.
Qed.

Lemma search_app m a x t :
  x ∉ tail m →
  search m (a ++ x :: t)
  = match search m a with
    | Some i => Some i
    | None => (λ k, length a + k) <$> search m (x :: t)
    end.
Proof.
  intros Hx. destruct (search m a) as [i|] eqn:Ha.
  - apply search_Some in Ha as [Ho Hmin]. apply search_first. split.
    + by apply occ_app_l.
    + intros j Hj Hoj. apply occ_app_inv in Hoj as [Hoj|[Hle _]]; [|by apply occ_bound in Ho; lia|done].
      by apply (Hmin j).
  - pose proof (search_None _ _ Ha) as Hna.
    destruct (search m (x :: t)) as [k|] eqn:Ht; simpl.
    + apply search_Some in Ht as [Ho Hmin]. apply search_first. split.
      * by apply occ_app_r.
      * intros j Hj Hoj. apply occ_app_inv in Hoj as [Hoj|[Hle Hoj]]; [by apply (Hna j)| |done].
        apply (Hmin (j - length a)); [lia|done].
    + apply search_absent. intros j Hoj.
      apply occ_app_inv in Hoj as [Hoj|[Hle Hoj]]; [by apply (Hna j)| |done].
      by apply (search_None _ _ Ht) in Hoj.
Qed.

Lemma search_seam m a t x :
  head t = Some x →
  x ∉ tail m →
  search m (a ++ t)
  = match search m a with
    | Some i => Some i
    | None => (λ k, length a + k) <$> search m t
    end.
Proof. destruct t; intros [= ->]. apply search_app. Qed.

Lemma occ_take m s k j : occ m (take k s) j → occ m s j ∧ j + length m ≤ k.
Proof.
  intros Ho. split.
  - rewrite <-(take_drop k s). by apply occ_app_l.
  - apply occ_bound in Ho. rewrite length_take in Ho. lia.
Qed.

Lemma search_take m s i k :
  search m s = Some i → k < i + length m → search m (take k s) = None.
Proof.
  intros Hs Hk. apply search_Some in Hs as [_ Hmin].
  apply search_absent. intros j Ho. apply occ_take in Ho as [Ho Hb].
  apply (Hmin j); [lia|done].
Qed.

Lemma search_prefix_None m a t : search m (a ++ t) = None → search m a = None.
Proof.
  intros Hs. apply search_absent. intros j Ho.
  by apply (search_None _ _ Hs j), occ_app_l.
Qed.

Lemma search_suffix_None m a t : search m (a ++ t) = None → search m t = None.
Proof.
  intros Hs. apply search_absent. intros j Ho.
  by apply (search_None _ _ Hs (length a + j)), occ_app_r.
Qed.

End Occurrences.

(** ** [indexOf], [includes], [slice] and [trim] *)

Section StringOps.
Implicit Types (m s a b : jsstring) (i j k : nat).

Lemma indexOf_Some m s i : search m s = Some i → indexOf s m = Z.of_nat i.
Proof. unfold indexOf. by intros ->. Qed.

Lemma indexOf_None m s : search m s = None → indexOf s m = (-1)%Z.
Proof. unfold indexOf. by intros ->. Qed.

Lemma indexOf_found s m : indexOf s m ≠ (-1)%Z ↔ ∃ i, search m s = Some i.
Proof.
  unfold indexOf. destruct (search m s) as [i|].
  - split; [eauto | lia].
  - split; [done | by intros [? ?]].
Qed.

Lemma includes_false s m : includes s m = false ↔ search m s = None.
Proof.
  unfold includes, indexOf. destruct (search m s) as [i|]; simpl.
  - split; [|done]. intros H%negb_false_iff%Z.eqb_eq. lia.
  - done.
Qed.

Lemma includes_true s m : includes s m = true ↔ ∃ i, search m s = Some i.
Proof.
  destruct (includes s m) eqn:Hi.
  - split; [intros _|done].
    destruct (search m s) as [i|] eqn:Hs; [eauto|].
    apply includes_false in Hs. congruence.
  - apply includes_false in Hi. rewrite Hi. split; [done | by intros [? ?]].
Qed.

(** [includes] means what it says: the needle is a substring. *)
Lemma includes_spec s m : includes s m = true ↔ ∃ a b, s = a ++ m ++ b.
Proof.
  rewrite includes_true. split.
  - intros [i Hs]. apply search_Some in Hs as [(a & b & -> & _) _]. eauto.
  - intros (a & b & ->). destruct (search m (a ++ m ++ b)) eqn:Hs; [eauto|].
    destruct (search_None _ _ Hs (length a)). by exists a, b.
Qed.

Lemma slice_0 s i : slice s 0 (Z.of_nat i) = take i s.
Proof.
  unfold slice, len. simpl.
  destruct (Z.ltb_spec (Z.of_nat i) 0) as [?|_]; [lia|].
  rewrite (Z.min_l 0) by lia. rewrite Z.sub_0_r.
  change (Z.to_nat 0) with 0. rewrite drop_0.
  destruct (decide (i ≤ length s)).
  - rewrite Z.min_l by lia. by rewrite Nat2Z.id.
  - rewrite Z.min_r by lia. rewrite Nat2Z.id. by rewrite !take_ge by lia.
Qed.

Lemma sliceFrom_nat s k : sliceFrom s (Z.of_nat k) = drop k s.
Proof.
  unfold sliceFrom, slice, len.
  destruct (Z.ltb_spec (Z.of_nat k) 0) as [?|_]; [lia|].
  destruct (Z.ltb_spec (Z.of_nat (length s)) 0) as [?|_]; [lia|].
  rewrite (Z.min_l (Z.of_nat (length s))) by lia.
  destruct (decide (k ≤ length s)).
  - rewrite Z.min_l by lia. rewrite Nat2Z.id.
    apply take_ge. rewrite length_drop. lia.
  - rewrite Z.min_r by lia. rewrite Nat2Z.id.
    rewrite !drop_ge by lia. by rewrite take_nil.
Qed.

Lemma trimStart_decomp s : ∃ w, s = w ++ trimStart s.
Proof.
  induction s as [|c s [w IH]]; simpl.
  - by exists [].
  - destruct (isWhiteSpace c).
    + exists (c :: w). simpl. by rewrite <-IH.
    + by exists [].
Qed.

Lemma trimEnd_decomp s : ∃ w, s = trimEnd s ++ w.
Proof.
  unfold trimEnd. destruct (trimStart_decomp (reverse s)) as [w Hw].
  exists (reverse w).
  rewrite <-reverse_app, <-Hw. by rewrite reverse_involutive.
Qed.

Lemma trim_decomp s : ∃ w1 w2, s = w1 ++ trim s ++ w2.
Proof.
  unfold trim. destruct (trimStart_decomp s) as [w1 H1].
  destruct (trimEnd_decomp (trimStart s)) as [w2 H2].
  exists w1, w2. by rewrite <-H2.
Qed.

Lemma trimStart_blank s : forallb isWhiteSpace s = true → trimStart s = [].
Proof.
  induction s as [|c s IH]; simpl; [done|].
  intros [-> Hs]%andb_true_iff. auto.
Qed.

Lemma forallb_reverse {A} (f : A → bool) (l : list A) :
  forallb f l = true → forallb f (reverse l) = true.
Proof.
  induction l as [|c l IH]; simpl; [done|].
  intros [Hc Hs]%andb_true_iff.
  rewrite reverse_cons, forallb_app. simpl. by rewrite (IH Hs), Hc.
Qed.


Lemma trim_blank s : forallb isWhiteSpace s = true → trim s = [].
Proof. intros Hs. unfold trim. by rewrite (trimStart_blank s). Qed.

(** Trimming only removes white space: what is cut off is blank. *)
Lemma trimStart_nil_blank s : trimStart s = [] → forallb isWhiteSpace s = true.
Proof.
  induction s as [|c s IH]; simpl; [done|].
  destruct (isWhiteSpace c); [auto | done].
Qed.

Lemma search_trim_None m s : search m s = None → search m (trim s) = None.
Proof.
  destruct (trim_decomp s) as (w1 & w2 & Hs). rewrite Hs at 1.
  intros H%search_suffix_None. by apply search_prefix_None in H.
Qed.

Lemma search_trimEnd_None m s : search m s = None → search m (trimEnd s) = None.
Proof.
  destruct (trimEnd_decomp s) as (w & Hs). rewrite Hs at 1.
  apply search_prefix_None.
Qed.

End StringOps.

(** ** The two markers *)

Section Markers.
Implicit Types (d s p q : jsstring).

Lemma length_BEGIN : length CLAWX_BEGIN = 20.
Proof. reflexivity. Qed.

Lemma length_END : length CLAWX_END = 18.
Proof. reflexivity. Qed.

Lemma BEGIN_head : CLAWX_BEGIN = 60%N :: tail CLAWX_BEGIN.
Proof. reflexivity. Qed.

Lemma END_head : CLAWX_END = 60%N :: tail CLAWX_END.
Proof. reflexivity. Qed.

Lemma seam_lt : seam_safe 60%N.
Proof. split; compute_done. Qed.

Lemma seam_nl : seam_safe 10%N.
Proof. split; compute_done. Qed.

Lemma search_END_in_BEGIN : search CLAWX_END CLAWX_BEGIN = None.
Proof. reflexivity. Qed.

Lemma search_BEGIN_in_END : search CLAWX_BEGIN CLAWX_END = None.
Proof. reflexivity. Qed.

Lemma search_BEGIN_here q : search CLAWX_BEGIN (CLAWX_BEGIN ++ q) = Some 0.
Proof. rewrite search_unfold. by rewrite startsWith_app. Qed.

Lemma search_END_here q : search CLAWX_END (CLAWX_END ++ q) = Some 0.
Proof. rewrite search_unfold. by rewrite startsWith_app. Qed.

(** A line feed in front of a string shifts the search by one. *)
Lemma search_BEGIN_nl q :
  search CLAWX_BEGIN (10%N :: q) = S <$> search CLAWX_BEGIN q.
Proof. by rewrite search_unfold. Qed.

Lemma search_END_nl q :
  search CLAWX_END (10%N :: q) = S <$> search CLAWX_END q.
Proof. by rewrite search_unfold. Qed.

(** Where the markers are first found in a document that carries the
    canonical section after a marker-free prefix. *)
Lemma search_BEGIN_canon p s q :
  search CLAWX_BEGIN p = None →
  search CLAWX_BEGIN (p ++ wrapped s ++ q) = Some (length p).
Proof.
  intros Hp.
  rewrite (search_seam _ p _ 60%N); [|done|apply seam_lt]. rewrite Hp.
  unfold wrapped. rewrite <-(assoc_L (++)), search_BEGIN_here.
  cbn. f_equal. lia.
Qed.

Lemma search_END_canon p s q :
  search CLAWX_END p = None →
  search CLAWX_END (trim s) = None →
  search CLAWX_END (p ++ wrapped s ++ q)
  = Some (length p + (20 + (1 + length (trim s) + 1))).
Proof.
  intros Hp Hs.
  rewrite (search_seam _ p _ 60%N); [|done|apply seam_lt]. rewrite Hp.
  unfold wrapped. rewrite <-!(assoc_L (++)).
  rewrite (search_seam _ CLAWX_BEGIN _ 10%N); [|done|apply seam_nl].
  rewrite search_END_in_BEGIN.
  rewrite (assoc_L (++) nl (trim s)).
  rewrite (search_seam _ (nl ++ trim s) _ 10%N); [|done|apply seam_nl].
  unfold nl at 1. cbn [app]. rewrite search_END_nl, Hs.
  unfold nl. cbn [app]. rewrite search_END_nl, search_END_here.
  cbn [fmap option_fmap option_map]. rewrite length_BEGIN. cbn [length].
  f_equal; lia.
Qed.

End Markers.

(** ** The merge, branch by branch *)

Section Merge.
Implicit Types (d s p q : jsstring).

(** A search for a needle that starts with [x] skips any prefix free
    of [x]. *)
Lemma occ_skip m a t i x :
  head m = Some x → x ∉ a → occ m (a ++ t) i →
  length a ≤ i ∧ occ m t (i - length a).
Proof.
  intros Hm. revert i. induction a as [|y a IH]; intros i Hx Ho.
  - simpl in *. split; [lia|]. by rewrite Nat.sub_0_r.
  - apply not_elem_of_cons in Hx as [Hxy Hx]. destruct i as [|i].
    + apply occ_0, startsWith_spec in Ho as [b Hb].
      destruct m as [|x' m]; simplify_eq/=.
    + simpl in Ho. apply occ_S in Ho. destruct (IH i Hx Ho). simpl. split; [lia|done].
Qed.

Lemma search_skip m a t x :
  head m = Some x → x ∉ a →
  search m (a ++ t) = (λ k, length a + k) <$> search m t.
Proof.
  intros Hm Hx. destruct (search m t) as [k|] eqn:Ht; simpl.
  - apply search_Some in Ht as [Ho Hmin]. apply search_first. split.
    + by apply occ_app_r.
    + intros j Hj Hoj. destruct (occ_skip _ _ _ _ _ Hm Hx Hoj) as [Hle Hoj'].
      apply (Hmin (j - length a)); [lia|done].
  - apply search_absent. intros j Hoj.
    destruct (occ_skip _ _ _ _ _ Hm Hx Hoj) as [_ Hoj'].
    by apply (search_None _ _ Ht) in Hoj'.
Qed.

(** No end marker starts inside a begin marker. *)
Lemma search_END_past_BEGIN q :
  search CLAWX_END (CLAWX_BEGIN ++ q)
  = (λ k, 20 + k) <$> search CLAWX_END q.
Proof.
  rewrite search_unfold.
  change (startsWith (CLAWX_BEGIN ++ q) CLAWX_END) with false.
  change (CLAWX_BEGIN ++ q) with (60%N :: (tail CLAWX_BEGIN ++ q)).
  cbv iota beta.
  rewrite (search_skip _ (tail CLAWX_BEGIN) _ 60%N); [|done|apply seam_lt].
  by destruct (search CLAWX_END q).
Qed.

Lemma merge_replace d s b e :
  search CLAWX_BEGIN d = Some b →
  search CLAWX_END d = Some e →
  mergeClawXSection d s
  = take b d ++ wrapped s ++ drop (e + length CLAWX_END) d.
Proof.
  intros Hb He. unfold mergeClawXSection.
  rewrite (indexOf_Some _ _ _ Hb), (indexOf_Some _ _ _ He).
  destruct (Z.eqb_spec (Z.of_nat b) (-1)) as [?|_]; [lia|].
  destruct (Z.eqb_spec (Z.of_nat e) (-1)) as [?|_]; [lia|].
  cbn [negb andb]. rewrite slice_0. unfold len.
  by rewrite <-Nat2Z.inj_add, sliceFrom_nat.
Qed.

Lemma merge_append d s :
  search CLAWX_BEGIN d = None ∨ search CLAWX_END d = None →
  mergeClawXSection d s = trimEnd d ++ nl ++ nl ++ wrapped s ++ nl.
Proof.
  unfold mergeClawXSection. intros [H|H]; rewrite (indexOf_None _ _ H).
  - done.
  - by rewrite andb_false_r.
Qed.

Lemma length_wrapped s : length (wrapped s) = 20 + (1 + length (trim s) + 1) + 18.
Proof.
  unfold wrapped, nl. rewrite !length_app, length_BEGIN, length_END. simpl. lia.
Qed.

(** Every output of the merge carries the canonical section. *)
Lemma merge_shape d s : ∃ p q, mergeClawXSection d s = p ++ wrapped s ++ q.
Proof.
  destruct (search CLAWX_BEGIN d) as [b|] eqn:Hb;
    [destruct (search CLAWX_END d) as [e|] eqn:He|].
  - rewrite (merge_replace _ _ _ _ Hb He). eauto.
  - rewrite merge_append by auto. exists (trimEnd d ++ nl ++ nl), nl.
    by rewrite <-!(assoc_L (++)).
  - rewrite merge_append by auto. exists (trimEnd d ++ nl ++ nl), nl.
    by rewrite <-!(assoc_L (++)).
Qed.

(** Merging into a document that carries the canonical section after
    a marker-free prefix replaces exactly that section. *)
Lemma merge_canon p s q s' :
  search CLAWX_BEGIN p = None →
  search CLAWX_END p = None →
  search CLAWX_END (trim s) = None →
  mergeClawXSection (p ++ wrapped s ++ q) s' = p ++ wrapped s' ++ q.
Proof.
  intros Hb He Hs.
  rewrite (merge_replace _ _ _ _ (search_BEGIN_canon p s q Hb)
             (search_END_canon p s q He Hs)).
  rewrite take_app_length. do 2 f_equal.
  rewrite (assoc_L (++) p). apply drop_app_length'.
  rewrite length_app, length_wrapped, length_END. lia.
Qed.

Lemma hollow_canon p s q :
  search CLAWX_BEGIN p = None →
  search CLAWX_END p = None →
  search CLAWX_END (trim s) = None →
  isHollowBootstrap (p ++ wrapped s ++ q)
  = bool_decide (trim p = []) && bool_decide (trim q = []).
Proof.
  intros Hb He Hs. unfold isHollowBootstrap.
  rewrite (indexOf_Some _ _ _ (search_BEGIN_canon p s q Hb)).
  rewrite (indexOf_Some _ _ _ (search_END_canon p s q He Hs)).
  destruct (Z.eqb_spec (Z.of_nat (length p)) (-1)) as [?|_]; [lia|].
  match goal with |- context [(Z.of_nat ?n =? -1)%Z] =>
    destruct (Z.eqb_spec (Z.of_nat n) (-1)) as [?|_]; [lia|] end.
  cbn [orb]. rewrite slice_0, take_app_length. unfold len.
  rewrite <-Nat2Z.inj_add, sliceFrom_nat.
  rewrite (assoc_L (++) p), drop_app_length'; [done|].
  rewrite length_app, length_wrapped, length_END. lia.
Qed.

Lemma search_nlnl_BEGIN p :
  search CLAWX_BEGIN p = None → search CLAWX_BEGIN (p ++ nl ++ nl) = None.
Proof.
  intros Hp. rewrite (search_seam _ p _ 10%N); [|done|apply seam_nl].
  by rewrite Hp.
Qed.

Lemma search_nlnl_END p :
  search CLAWX_END p = None → search CLAWX_END (p ++ nl ++ nl) = None.
Proof.
  intros Hp. rewrite (search_seam _ p _ 10%N); [|done|apply seam_nl].
  by rewrite Hp.
Qed.

Lemma markers_in_order_intro d :
  (includes d CLAWX_BEGIN = false ∧ includes d CLAWX_END = false)
  ∨ (0 ≤ indexOf d CLAWX_BEGIN < indexOf d CLAWX_END)%Z →
  markers_in_order d.
Proof.
  intros [[Hb%includes_false He%includes_false]|Hlt]; [by left|].
  right. unfold indexOf in Hlt.
  destruct (search CLAWX_BEGIN d) as [b|]; [|lia].
  destruct (search CLAWX_END d) as [e|]; [|lia].
  exists b, e. repeat split; lia.
Qed.

(** Merging the same section again into the output changes nothing
    when the markers of the document are in order and the section holds
    no end marker. *)
Lemma merge_stable d s :
  search CLAWX_END s = None → markers_in_order d →
  mergeClawXSection (mergeClawXSection d s) s = mergeClawXSection d s.
Proof.
  intros Hs%search_trim_None [[Hb He]|(b & e & Hb & He & Hlt)].
  - rewrite (merge_append d s) by auto.
    replace (trimEnd d ++ nl ++ nl ++ wrapped s ++ nl)
      with ((trimEnd d ++ nl ++ nl) ++ wrapped s ++ nl)
      by (by rewrite <-!(assoc_L (++))).
    apply merge_canon; [|  |done].
    + by apply search_nlnl_BEGIN, search_trimEnd_None.
    + by apply search_nlnl_END, search_trimEnd_None.
  - rewrite (merge_replace _ _ _ _ Hb He).
    apply merge_canon; [| |done].
    + apply (search_take _ _ _ _ Hb). rewrite length_BEGIN. lia.
    + apply (search_take _ _ _ _ He). lia.
Qed.

End Merge.

(** ** Claims about the section merger and the hollow test *)

(** C1, as stated, fails: a document whose first end marker precedes its
    first begin marker grows on every merge. *)
Lemma merge_twice_differs :
  ¬ (∀ d s : jsstring,
       mergeClawXSection (mergeClawXSection d s) s = mergeClawXSection d s).
Proof.
  intros H.
  specialize (H (CLAWX_END ++ js "x" ++ CLAWX_BEGIN) (js "y")).
  vm_compute in H. discriminate H.
Qed.

(** C1 (amended): when the section body holds no end marker and the
    document either holds neither marker or has its first begin marker
    before its first end marker, merging the same section a second time
    into the output leaves it unchanged. *)
Theorem merge_idempotent (d s : jsstring) :
  includes s CLAWX_END = false →
  (includes d CLAWX_BEGIN = false ∧ includes d CLAWX_END = false)
  ∨ (0 ≤ indexOf d CLAWX_BEGIN < indexOf d CLAWX_END)%Z →
  mergeClawXSection (mergeClawXSection d s) s = mergeClawXSection d s.
Proof.
  intros Hs%includes_false Hd.
  by apply merge_stable, markers_in_order_intro.
Qed.

Lemma merge_idempotent_witness :
  mergeClawXSection
    (mergeClawXSection (js "Hello" ++ nl) (js "Rules: be nice"))
    (js "Rules: be nice")
  = mergeClawXSection (js "Hello" ++ nl) (js "Rules: be nice").
Proof.
  apply (merge_idempotent (js "Hello" ++ nl) (js "Rules: be nice")).
  - reflexivity.
  - left. split; reflexivity.
Defined.

(** C2, as stated, fails: the span that is replaced ends at the first
    end marker of the document, which need not be the one written in
    the decomposition. *)
Lemma replace_in_place_fails :
  ¬ (∀ prefix old suffix s : jsstring,
       mergeClawXSection
         (prefix ++ CLAWX_BEGIN ++ old ++ CLAWX_END ++ suffix) s
       = prefix ++ CLAWX_BEGIN ++ nl ++ trim s ++ nl ++ CLAWX_END ++ suffix).
Proof.
  intros H. specialize (H [] CLAWX_END [] (js "x")).
  vm_compute in H. discriminate H.
Qed.

(** C2 (amended): if [d = prefix + BEGIN + old + END + suffix] where
    the prefix holds neither marker and [old] holds no end marker (the
    two markers shown are the first of their kind in [d]), the merge is
    [prefix + BEGIN + "\n" + trim(s) + "\n" + END + suffix]. *)
Theorem merge_replace_in_place (prefix old suffix s : jsstring) :
  includes prefix CLAWX_BEGIN = false →
  includes prefix CLAWX_END = false →
  includes old CLAWX_END = false →
  mergeClawXSection (prefix ++ CLAWX_BEGIN ++ old ++ CLAWX_END ++ suffix) s
  = prefix ++ CLAWX_BEGIN ++ nl ++ trim s ++ nl ++ CLAWX_END ++ suffix.
Proof.
  intros Hpb%includes_false Hpe%includes_false Hoe%includes_false.
  assert (search CLAWX_BEGIN
            (prefix ++ CLAWX_BEGIN ++ old ++ CLAWX_END ++ suffix)
          = Some (length prefix)) as Hb.
  { rewrite (search_seam _ prefix _ 60%N); [|done|apply seam_lt].
    rewrite Hpb, search_BEGIN_here. cbn. f_equal. lia. }
  assert (search CLAWX_END
            (prefix ++ CLAWX_BEGIN ++ old ++ CLAWX_END ++ suffix)
          = Some (length prefix + (20 + length old))) as He.
  { rewrite (search_seam _ prefix _ 60%N); [|done|apply seam_lt].
    rewrite Hpe, search_END_past_BEGIN.
    rewrite (search_seam _ old _ 60%N); [|done|apply seam_lt].
    rewrite Hoe, search_END_here. cbn. do 2 f_equal. lia. }
  rewrite (merge_replace _ _ _ _ Hb He), take_app_length.
  replace (prefix ++ CLAWX_BEGIN ++ old ++ CLAWX_END ++ suffix)
    with ((prefix ++ CLAWX_BEGIN ++ old ++ CLAWX_END) ++ suffix)
    by (by rewrite <-!(assoc_L (++))).
  rewrite drop_app_length'.
  - unfold wrapped. by rewrite <-!(assoc_L (++)).
  - rewrite !length_app, length_BEGIN, length_END. lia.
Qed.

Lemma merge_replace_in_place_witness :
  mergeClawXSection
    (js "intro" ++ CLAWX_BEGIN ++ js "stale" ++ CLAWX_END ++ js "outro")
    (js " fresh ")
  = js "intro" ++ CLAWX_BEGIN ++ nl ++ trim (js " fresh ") ++ nl
      ++ CLAWX_END ++ js "outro".
Proof.
  apply (merge_replace_in_place (js "intro") (js "stale") (js "outro"));
    reflexivity.
Defined.

(** C3: a document that holds neither marker gets
    [trimEnd(d) + "\n\n" + BEGIN + "\n" + trim(s) + "\n" + END + "\n"];
    merging "Rules: be nice" into "Hello\n" gives the text of the
    scenario. *)
Theorem merge_append_when_absent :
  (∀ d s : jsstring,
     includes d CLAWX_BEGIN = false → includes d CLAWX_END = false →
     mergeClawXSection d s
     = trimEnd d ++ nl ++ nl ++ CLAWX_BEGIN ++ nl ++ trim s ++ nl
         ++ CLAWX_END ++ nl)
  ∧ mergeClawXSection (js "Hello" ++ nl) (js "Rules: be nice")
    = js "Hello" ++ nl ++ nl ++ js "<!-- clawx:begin -->" ++ nl
        ++ js "Rules: be nice" ++ nl ++ js "<!-- clawx:end -->" ++ nl.
Proof.
  split; [|reflexivity].
  intros d s Hb%includes_false _. rewrite merge_append by auto.
  unfold wrapped. by rewrite <-!(assoc_L (++)).
Qed.

Lemma merge_append_when_absent_witness :
  mergeClawXSection (js "notes  ") (js "body")
  = trimEnd (js "notes  ") ++ nl ++ nl ++ CLAWX_BEGIN ++ nl
      ++ trim (js "body") ++ nl ++ CLAWX_END ++ nl.
Proof.
  apply (proj1 merge_append_when_absent (js "notes  ") (js "body"));
    reflexivity.
Defined.

(** C4: the hollow test answers true exactly when both markers occur
    and the text before the first begin marker and the text after the
    first end marker both trim to the empty string; it answers false
    when a marker is missing.  The three examples of the specification
    follow. *)
Theorem hollow_detection :
  (∀ c : jsstring,
     isHollowBootstrap c = true
     ↔ ∃ b e, first_at CLAWX_BEGIN c b ∧ first_at CLAWX_END c e
              ∧ trim (take b c) = []
              ∧ trim (drop (e + length CLAWX_END) c) = [])
  ∧ (∀ c : jsstring,
       includes c CLAWX_BEGIN = false ∨ includes c CLAWX_END = false →
       isHollowBootstrap c = false)
  ∧ isHollowBootstrap (CLAWX_BEGIN ++ nl ++ js "X" ++ nl ++ CLAWX_END) = true
  ∧ isHollowBootstrap
      (js "intro" ++ nl ++ CLAWX_BEGIN ++ nl ++ js "X" ++ nl ++ CLAWX_END)
    = false
  ∧ isHollowBootstrap (js "no markers here") = false.
Proof.
  split; [|split; [|by repeat split]].
  - intros c. unfold isHollowBootstrap, indexOf. split.
    + destruct (search CLAWX_BEGIN c) as [b|] eqn:Hb; [|done].
      destruct (search CLAWX_END c) as [e|] eqn:He;
        [|by rewrite orb_true_r].
      destruct (Z.eqb_spec (Z.of_nat b) (-1)) as [?|_]; [lia|].
      destruct (Z.eqb_spec (Z.of_nat e) (-1)) as [?|_]; [lia|].
      cbn [orb]. rewrite slice_0. unfold len.
      rewrite <-Nat2Z.inj_add, sliceFrom_nat.
      intros [H1%bool_decide_eq_true H2%bool_decide_eq_true]%andb_true_iff.
      exists b, e. auto using search_Some.
    + intros (b & e & Hb%search_first & He%search_first & H1 & H2).
      rewrite Hb, He.
      destruct (Z.eqb_spec (Z.of_nat b) (-1)) as [?|_]; [lia|].
      destruct (Z.eqb_spec (Z.of_nat e) (-1)) as [?|_]; [lia|].
      cbn [orb]. rewrite slice_0. unfold len.
      rewrite <-Nat2Z.inj_add, sliceFrom_nat, H1, H2. done.
  - intros c. unfold includes, isHollowBootstrap.
    intros [->%negb_false_iff| ->%negb_false_iff]; [done|].
    by rewrite orb_true_r.
Qed.

(** C9: whatever the inputs, the output of the merge holds both
    markers, so a further merge into it takes the replace branch. *)
Theorem merge_output_has_markers (d s : jsstring) :
  includes (mergeClawXSection d s) CLAWX_BEGIN = true
  ∧ includes (mergeClawXSection d s) CLAWX_END = true
  ∧ ∀ s' : jsstring,
      let out := mergeClawXSection d s in
      mergeClawXSection out s'
      = slice out 0 (indexOf out CLAWX_BEGIN) ++ wrapped s'
          ++ sliceFrom out (indexOf out CLAWX_END + len CLAWX_END).
Proof.
  destruct (merge_shape d s) as (p & q & Hout).
  assert (includes (mergeClawXSection d s) CLAWX_BEGIN = true) as Hb.
  { apply includes_spec. exists p, (nl ++ trim s ++ nl ++ CLAWX_END ++ q).
    rewrite Hout. unfold wrapped. by rewrite <-!(assoc_L (++)). }
  assert (includes (mergeClawXSection d s) CLAWX_END = true) as He.
  { apply includes_spec. exists (p ++ CLAWX_BEGIN ++ nl ++ trim s ++ nl), q.
    rewrite Hout. unfold wrapped. by rewrite <-!(assoc_L (++)). }
  split; [done|]. split; [done|].
  intros s' out. unfold mergeClawXSection at 1. fold out.
  unfold includes in Hb, He. fold out in Hb, He. by rewrite Hb, He.
Qed.

(** What the repair pass does with one document: it unlinks the file
    exactly when its content passes the hollow test. *)
Lemma repairFile_run `{Platform} (workspaceDir file content : jsstring)
    (fs : disk_t) :
  let filePath := join workspaceDir file in
  fs !! filePath = Some (File content) →
  repairFile workspaceDir file fs
  = if isHollowBootstrap content then
      Outcome (Ok tt) (delete filePath fs)
        [Unlinked filePath;
         Logged Info
           (js "Removed ClawX-only bootstrap file for re-seeding: "
              ++ file ++ js " (" ++ workspaceDir ++ js ")")]
    else Outcome (Ok tt) fs [].
Proof.
  intros filePath Hf.
  unfold repairFile, try_catch, mbind, M_bind, readFileSync, unlinkSync,
    logger_info, emit, mret, M_ret.
  fold filePath. cbv beta zeta.
  repeat (rewrite Hf; cbn [res disk events app]).
  destruct (isHollowBootstrap content); [|done].
  repeat (rewrite Hf; cbn [res disk events app]). done.
Qed.



(** ** Reasoning about runs *)

Section Runs.
Context `{Platform}.
Implicit Types (fs : disk_t) (p : jsstring).

Lemma bind_run {A B} (m : M A) (f : A → M B) fs :
  (m ≫= f) fs
  = match res (m fs) with
    | Ok a => Outcome (res (f a (disk (m fs)))) (disk (f a (disk (m fs))))
                (events (m fs) ++ events (f a (disk (m fs))))
    | Throw e => Outcome (Throw e) (disk (m fs)) (events (m fs))
    end.
Proof. reflexivity. Qed.

Lemma writes_app evs evs' : writes (evs ++ evs') = writes evs ++ writes evs'.
Proof. apply omap_app. Qed.

Lemma node_step_refl o : node_step o o.
Proof. by left. Qed.

Lemma node_step_trans o1 o2 o3 :
  node_step o1 o2 → node_step o2 o3 → node_step o1 o3.
Proof.
  intros [->|[[-> ->]|(c & c' & -> & ->)]] [->|[[? ->]|(d & d' & ? & ->)]];
    unfold node_step; simplify_eq; eauto 10.
Qed.

Lemma node_step_file o o' : node_step o o' → is_file o' → is_file o.
Proof.
  intros [->|[[-> ->]|(c & c' & -> & ->)]] [d Hd]; simplify_eq;
    unfold is_file; eauto.
Qed.

Lemma node_step_file_iff o o' : node_step o o' → is_file o' ↔ is_file o.
Proof.
  intros Hs. split; [by apply node_step_file|].
  destruct Hs as [->|[[-> ->]|(c & c' & -> & ->)]]; unfold is_file;
    [done|by intros [? ?]|eauto].
Qed.

Lemma no_new_file_refl fs : no_new_file fs fs.
Proof. intros p. apply node_step_refl. Qed.

Lemma no_new_file_trans fs1 fs2 fs3 :
  no_new_file fs1 fs2 → no_new_file fs2 fs3 → no_new_file fs1 fs3.
Proof. intros H1 H2 p. eapply node_step_trans; [apply H1 | apply H2]. Qed.

(** A computation that leaves the disk alone and writes nothing. *)
Lemma tame_quiet {A} (m : M A) :
  (∀ fs, disk (m fs) = fs ∧ writes (events (m fs)) = []) → tame m.
Proof.
  intros Hm fs. destruct (Hm fs) as [-> ->]. split.
  - apply no_new_file_refl.
  - intros p c Hin. by apply elem_of_nil in Hin.
Qed.

Lemma tame_ret {A} (a : A) : tame (mret a).
Proof. by apply tame_quiet. Qed.

Lemma tame_bind {A B} (m : M A) (f : A → M B) :
  tame m → (∀ a, tame (f a)) → tame (m ≫= f).
Proof.
  intros Hm Hf fs. rewrite bind_run. destruct (Hm fs) as [Hd Hw].
  destruct (res (m fs)) as [a|e]; simpl; [|done].
  destruct (Hf a (disk (m fs))) as [Hd' Hw']. split.
  - by eapply no_new_file_trans.
  - intros p c. rewrite writes_app, elem_of_app. intros [Hin|Hin]; [eauto|].
    eapply node_step_file; [apply Hd | eauto].
Qed.

Lemma tame_try {A} (body : M A) (handler : exn → M A) :
  tame body → (∀ e, tame (handler e)) → tame (try_catch body handler).
Proof.
  intros Hm Hf fs. unfold try_catch. destruct (Hm fs) as [Hd Hw].
  destruct (res (body fs)) as [a|e]; simpl; [done|].
  destruct (Hf e (disk (body fs))) as [Hd' Hw']. split.
  - by eapply no_new_file_trans.
  - intros p c. rewrite writes_app, elem_of_app. intros [Hin|Hin]; [eauto|].
    eapply node_step_file; [apply Hd | eauto].
Qed.

Lemma tame_forEach {A} (l : list A) (body : A → M unit) :
  (∀ x, tame (body x)) → tame (forEach l body).
Proof.
  intros Hb. induction l as [|x l IH]; simpl.
  - apply tame_ret.
  - apply tame_bind; [apply Hb | by intros _].
Qed.

Lemma tame_emit l msg : tame (emit (Logged l msg)).
Proof. by apply tame_quiet. Qed.

Lemma tame_existsSync p : tame (existsSync p).
Proof. by apply tame_quiet. Qed.

Lemma tame_readFileSync p : tame (readFileSync p).
Proof.
  apply tame_quiet. intros fs. unfold readFileSync.
  by destruct (fs !! p) as [[]|].
Qed.

Lemma tame_readdirSyncWithFileTypes p : tame (readdirSyncWithFileTypes p).
Proof.
  apply tame_quiet. intros fs. unfold readdirSyncWithFileTypes.
  by destruct (fs !! p) as [[]|].
Qed.

Lemma tame_readdirSync p : tame (readdirSync p).
Proof.
  apply tame_bind; [apply tame_readdirSyncWithFileTypes|].
  intros a. apply tame_ret.
Qed.

Lemma tame_mkdirSync p : tame (mkdirSync p).
Proof.
  intros fs. unfold mkdirSync.
  destruct (fs !! p) as [[]|] eqn:Hp; simpl;
    try (split; [apply no_new_file_refl | by intros ?? ?%elem_of_nil]).
  destruct (mkdirAllowed p); simpl;
    [|split; [apply no_new_file_refl | by intros ?? ?%elem_of_nil]].
  split; [|by intros ?? ?%elem_of_nil].
  intros q. destruct (decide (p = q)) as [<-|Hne].
  - rewrite lookup_insert_eq, Hp. right. by left.
  - rewrite lookup_insert_ne by done. apply node_step_refl.
Qed.

(** [writeFileSync] alone can create a file; it is tame where a file
    already is. *)
Lemma writeFileSync_file p c c' fs :
  fs !! p = Some (File c) →
  writeFileSync p c' fs = Outcome (Ok tt) (<[p := File c']> fs) [Wrote p c'].
Proof. unfold writeFileSync. by intros ->. Qed.

Lemma no_new_file_rewrite p c c' fs :
  fs !! p = Some (File c) → no_new_file fs (<[p := File c']> fs).
Proof.
  intros Hp q. destruct (decide (p = q)) as [<-|Hne].
  - rewrite lookup_insert_eq, Hp. right. right. eauto.
  - rewrite lookup_insert_ne by done. apply node_step_refl.
Qed.

End Runs.

(** ** The synchronisation pass *)

Section Sync.
Context `{Platform}.
Implicit Types (fs : disk_t) (p : jsstring).

Lemma tame_throw {A} e : tame (throw (A:=A) e).
Proof. by apply tame_quiet. Qed.

Lemma tame_parseJSON text : tame (parseJSON text).
Proof.
  unfold parseJSON. destruct (JSON_parse text); [apply tame_ret|apply tame_throw].
Qed.

Lemma tame_workspacesFromConfig dir dirs : tame (workspacesFromConfig dir dirs).
Proof.
  apply tame_try; [|intros _; apply tame_ret].
  apply tame_bind; [apply tame_existsSync|]. intros [|]; [|apply tame_ret].
  apply tame_bind; [apply tame_readFileSync|]. intros text.
  apply tame_bind; [apply tame_parseJSON|]. intros config. cbv zeta.
  repeat case_match; apply tame_ret.
Qed.

Lemma tame_workspacesFromScan dir dirs : tame (workspacesFromScan dir dirs).
Proof.
  apply tame_try; [|intros _; apply tame_ret].
  apply tame_bind; [apply tame_readdirSyncWithFileTypes|].
  intros entries. apply tame_ret.
Qed.

Lemma tame_resolveAllWorkspaceDirs : tame resolveAllWorkspaceDirs.
Proof.
  apply tame_bind; [apply tame_workspacesFromConfig|]. intros dirs.
  apply tame_bind; [apply tame_workspacesFromScan|]. intros dirs'.
  apply tame_ret.
Qed.

(** What one step of the inner loop does, case by case. *)
Lemma mergeTemplate_run contextDir workspaceDir file fs :
  let target := join workspaceDir (targetName file) in
  mergeTemplate contextDir workspaceDir file fs
  = match fs !! target with
    | None =>
        Outcome (Ok tt) fs
          [Logged Debug
             (js "Skipping " ++ targetName file ++ js " in " ++ workspaceDir
                ++ js " (file does not exist yet, will be seeded by gateway)")]
    | Some n =>
        match fs !! join contextDir file with
        | Some (File section) =>
            match n with
            | File existing =>
                let merged := mergeClawXSection existing section in
                if bool_decide (merged = existing) then Outcome (Ok tt) fs []
                else
                  Outcome (Ok tt) (<[target := File merged]> fs)
                    [Wrote target merged;
                     Logged Info
                       (js "Merged ClawX context into " ++ targetName file
                          ++ js " (" ++ workspaceDir ++ js ")")]
            | Dir _ => Outcome (Throw EISDIR) fs []
            | Denied => Outcome (Throw EACCES) fs []
            end
        | Some (Dir _) => Outcome (Throw EISDIR) fs []
        | Some Denied => Outcome (Throw EACCES) fs []
        | None => Outcome (Throw ENOENT) fs []
        end
    end.
Proof.
  intros target.
  unfold mergeTemplate, mbind, M_bind, existsSync, readFileSync,
    logger_debug, logger_info, emit, mret, M_ret.
  fold target. cbv beta zeta.
  destruct (fs !! target) as [n|] eqn:Ht; cbn [res disk events negb app];
    [|done].
  destruct (fs !! join contextDir file) as [[section| |]|];
    cbn [res disk events app]; [|done..].
  rewrite Ht. destruct n as [existing| |]; cbn [res disk events app]; [|done..].
  case_bool_decide; cbn [negb res disk events app]; [done|].
  by rewrite (writeFileSync_file _ _ _ _ Ht).
Qed.

Lemma tame_mergeTemplate contextDir workspaceDir file :
  tame (mergeTemplate contextDir workspaceDir file).
Proof.
  intros fs. rewrite mergeTemplate_run. cbv zeta.
  destruct (fs !! join workspaceDir (targetName file)) as [n|] eqn:Ht;
    [|split; [apply no_new_file_refl | by intros ?? ?%elem_of_nil]].
  repeat case_match; subst; cbn [disk events];
    try (split; [apply no_new_file_refl | by intros ?? ?%elem_of_nil]).
  split.
  - by eapply no_new_file_rewrite.
  - intros p c [[= -> ->]|?%elem_of_nil]%elem_of_cons; [|done].
    unfold is_file. eauto.
Qed.

Lemma tame_syncWorkspace contextDir files workspaceDir :
  tame (syncWorkspace contextDir files workspaceDir).
Proof.
  apply tame_bind; [apply tame_existsSync|]. intros present.
  apply tame_bind.
  - destruct present; [apply tame_ret | apply tame_mkdirSync].
  - intros _. apply tame_forEach. intros file. apply tame_mergeTemplate.
Qed.

Lemma tame_ensureClawXContext : tame ensureClawXContext.
Proof.
  apply tame_bind; [apply tame_existsSync|]. intros [|]; [|apply tame_emit].
  apply tame_bind.
  - apply tame_try; [|intros _; apply tame_ret].
    apply tame_bind; [apply tame_readdirSync|]. intros names. apply tame_ret.
  - intros [files|]; [|apply tame_ret].
    apply tame_bind; [apply tame_resolveAllWorkspaceDirs|]. intros dirs.
    apply tame_forEach. intros dir. apply tame_syncWorkspace.
Qed.

End Sync.

(** C5: a target document that does not exist is skipped without any
    write, and a whole run of [ensureClawXContext] creates no file: the
    paths that hold a file are the same before and after, every write
    lands on a file that was there, and a workspace directory without
    [.md] document has none afterwards. *)
Theorem no_document_creation `{Platform} (fs : disk_t) :
  (∀ contextDir workspaceDir file : jsstring,
     fs !! join workspaceDir (targetName file) = None →
     let o := mergeTemplate contextDir workspaceDir file fs in
     res o = Ok tt ∧ disk o = fs ∧ writes (events o) = [])
  ∧ let run := ensureClawXContext fs in
    (∀ p, is_file (disk run !! p) ↔ is_file (fs !! p))
    ∧ (∀ p c, (p, c) ∈ writes (events run) → is_file (fs !! p))
    ∧ (∀ workspaceDir : jsstring,
         (∀ name, endsWith name (js ".md") = true →
                  ¬ is_file (fs !! join workspaceDir name)) →
         ∀ name, endsWith name (js ".md") = true →
                 ¬ is_file (disk run !! join workspaceDir name)).
Proof.
  split.
  - intros contextDir workspaceDir file Hnone. cbv zeta.
    rewrite mergeTemplate_run. cbv zeta. by rewrite Hnone.
  - destruct (tame_ensureClawXContext fs) as [Hd Hw]. cbv zeta.
    split; [|split].
    + intros p. apply node_step_file_iff, Hd.
    + done.
    + intros workspaceDir Hnone name Hname Hfile.
      apply (Hnone name Hname). eapply node_step_file; [apply Hd | done].
Qed.

Lemma no_document_creation_witness :
  let o := mergeTemplate (H:=demo) (js "/app/resources/context")
             (js "/home/u/.openclaw/workspace") (js "AGENTS.clawx.md")
             demo_disk_empty_workspace in
  res o = Ok tt ∧ disk o = demo_disk_empty_workspace ∧ writes (events o) = [].
Proof.
  apply (proj1 (no_document_creation (H:=demo) demo_disk_empty_workspace)).
  vm_compute. reflexivity.
Defined.

(** ** Workspace discovery *)

Section Discovery.
Context `{Platform}.
Implicit Types (fs : disk_t) (dirs : list jsstring).

Lemma set_add_sound dir x dirs :
  origin dir x → sound_set dir dirs → sound_set dir (set_add x dirs).
Proof.
  intros Hx [Hnd Ho]. unfold set_add. case_bool_decide as Hin; [done|].
  split.
  - apply NoDup_app. split; [done|]. split; [|apply NoDup_singleton].
    intros y Hy ->%list_elem_of_singleton. done.
  - intros d [?| ->%list_elem_of_singleton]%elem_of_app; auto.
Qed.

Lemma addWorkspace_sound dir ws dirs :
  sound_set dir dirs → sound_set dir (addWorkspace ws dirs).
Proof.
  intros Hd. unfold addWorkspace. repeat case_match; try done.
  apply set_add_sound; [|done]. left. eauto.
Qed.

Lemma foldl_sound {A} dir (f : list jsstring → A → list jsstring) l dirs :
  (∀ acc x, sound_set dir acc → sound_set dir (f acc x)) →
  sound_set dir dirs → sound_set dir (foldl f dirs l).
Proof.
  intros Hf. revert dirs. induction l as [|x l IH]; intros dirs Hd; simpl; auto.
Qed.

Lemma outcome_eta {A} (o : outcome A) :
  o = Outcome (res o) (disk o) (events o).
Proof. by destruct o. Qed.

Lemma pure_ret {A} (P : A → Prop) a : P a → pure_with P (mret a).
Proof. intros Ha fs. repeat split. by intros ? [= <-]. Qed.

Lemma pure_bind {A B} (Q : A → Prop) (P : B → Prop) (m : M A) (f : A → M B) :
  pure_with Q m → (∀ a, Q a → pure_with P (f a)) → pure_with P (m ≫= f).
Proof.
  intros Hm Hf fs. rewrite bind_run. destruct (Hm fs) as (Hd & He & Hr).
  destruct (res (m fs)) as [a|e]; cbn [res disk events]; [|done].
  destruct (Hf a (Hr a eq_refl) (disk (m fs))) as (Hd' & He' & Hr').
  rewrite Hd', He, He'. rewrite Hd in Hr'. by rewrite Hd.
Qed.

Lemma pure_try {A} (P : A → Prop) (body : M A) (handler : exn → M A) :
  pure_with P body → (∀ e, pure_with P (handler e)) →
  pure_with P (try_catch body handler).
Proof.
  intros Hm Hf fs. unfold try_catch. destruct (Hm fs) as (Hd & He & Hr).
  destruct (res (body fs)) as [a|e] eqn:Hres; cbn [res disk events].
  - rewrite Hres. done.
  - destruct (Hf e (disk (body fs))) as (Hd' & He' & Hr').
    rewrite Hd', He, He'. rewrite Hd in Hr'. by rewrite Hd.
Qed.

(** A [try] whose handler returns a value always returns a value. *)
Lemma try_returns {A} (body : M A) (a0 : A) fs :
  ∃ a, res (try_catch body (λ _, mret a0) fs) = Ok a.
Proof.
  unfold try_catch. destruct (res (body fs)) as [a|e] eqn:Hres.
  - rewrite Hres. eauto.
  - cbn. eauto.
Qed.

Lemma pure_existsSync p : pure_with (λ _, True) (existsSync p).
Proof. by intros fs. Qed.

Lemma pure_readFileSync p : pure_with (λ _, True) (readFileSync p).
Proof. intros fs. unfold readFileSync. by destruct (fs !! p) as [[]|]. Qed.

Lemma pure_readdirSyncWithFileTypes p :
  pure_with (λ _, True) (readdirSyncWithFileTypes p).
Proof.
  intros fs. unfold readdirSyncWithFileTypes. by destruct (fs !! p) as [[]|].
Qed.

Lemma pure_parseJSON text : pure_with (λ _, True) (parseJSON text).
Proof. intros fs. unfold parseJSON. by destruct (JSON_parse text). Qed.

Lemma pure_workspacesFromConfig dir dirs :
  sound_set dir dirs →
  pure_with (sound_set dir) (workspacesFromConfig dir dirs).
Proof.
  intros Hd. apply pure_try; [|intros _; by apply pure_ret].
  apply (pure_bind (λ _, True)); [apply pure_existsSync|].
  intros [|] _; [|by apply pure_ret].
  apply (pure_bind (λ _, True)); [apply pure_readFileSync|]. intros text _.
  apply (pure_bind (λ _, True)); [apply pure_parseJSON|]. intros config _.
  cbv zeta. repeat case_match; apply pure_ret; auto using addWorkspace_sound.
  apply foldl_sound; [|by apply addWorkspace_sound].
  intros acc x Hacc. by apply addWorkspace_sound.
Qed.

Lemma pure_workspacesFromScan dir dirs :
  sound_set dir dirs →
  pure_with (sound_set dir) (workspacesFromScan dir dirs).
Proof.
  intros Hd. apply pure_try; [|intros _; by apply pure_ret].
  apply (pure_bind (λ _, True)); [apply pure_readdirSyncWithFileTypes|].
  intros entries _. apply pure_ret.
  apply foldl_sound; [|done].
  intros acc x Hacc. case_match; [|done].
  apply set_add_sound; [|done]. right. eauto.
Qed.

(** Each block never throws, never touches the disk, and leaves a
    sound set. *)
Lemma workspacesFromConfig_run dir dirs fs :
  sound_set dir dirs →
  ∃ dirs', workspacesFromConfig dir dirs fs = Outcome (Ok dirs') fs []
           ∧ sound_set dir dirs'.
Proof.
  intros Hd.
  destruct (pure_workspacesFromConfig dir dirs Hd fs) as (Hdisk & Hev & Hres).
  assert (∃ a, res (workspacesFromConfig dir dirs fs) = Ok a) as [dirs' Hok].
  { unfold workspacesFromConfig. apply try_returns. }
  exists dirs'. split; [|by apply Hres].
  rewrite (outcome_eta (workspacesFromConfig dir dirs fs)).
  by rewrite Hok, Hdisk, Hev.
Qed.

Lemma workspacesFromScan_run dir dirs fs :
  sound_set dir dirs →
  ∃ dirs', workspacesFromScan dir dirs fs = Outcome (Ok dirs') fs []
           ∧ sound_set dir dirs'.
Proof.
  intros Hd.
  destruct (pure_workspacesFromScan dir dirs Hd fs) as (Hdisk & Hev & Hres).
  assert (∃ a, res (workspacesFromScan dir dirs fs) = Ok a) as [dirs' Hok].
  { unfold workspacesFromScan. apply try_returns. }
  exists dirs'. split; [|by apply Hres].
  rewrite (outcome_eta (workspacesFromScan dir dirs fs)).
  by rewrite Hok, Hdisk, Hev.
Qed.



Lemma workspacesFromScan_unreadable dir dirs fs :
  (∀ entries, fs !! dir ≠ Some (Dir entries)) →
  workspacesFromScan dir dirs fs = Outcome (Ok dirs) fs [].
Proof.
  intros Hno.
  unfold workspacesFromScan, try_catch, mbind, M_bind,
    readdirSyncWithFileTypes.
  cbv beta zeta. destruct (fs !! dir) as [[text|entries|]|]; try done.
  by destruct (Hno entries).
Qed.

(** Discovery as a whole returns a list and leaves the disk alone. *)
Lemma discovery_run fs :
  ∃ dirs, resolveAllWorkspaceDirs fs = Outcome (Ok dirs) fs [].
Proof.
  assert (sound_set (join homedir (js ".openclaw")) []) as H0.
  { split; [apply NoDup_nil_2 | by intros d ?%elem_of_nil]. }
  destruct (workspacesFromConfig_run _ [] fs H0) as (d1 & Hr1 & H1).
  destruct (workspacesFromScan_run _ d1 fs H1) as (found & Hr2 & H2).
  eexists. unfold resolveAllWorkspaceDirs.
  rewrite bind_run, Hr1. cbn [res disk events].
  rewrite bind_run, Hr2. done.
Qed.

End Discovery.




(** ** Runs that have nothing to write *)

Section Settled.
Context `{Platform} (fs0 : disk_t).
Implicit Types (fs : disk_t) (p : jsstring).


Lemma wn_quiet {A} (m : M A) :
  (∀ fs, disk (m fs) = fs ∧ writes (events (m fs)) = []) →
  writes_nothing_from fs0 m.
Proof. intros Hm fs Hfs. destruct (Hm fs) as [-> ->]. done. Qed.

Lemma wn_pure {A} (P : A → Prop) (m : M A) :
  pure_with P m → writes_nothing_from fs0 m.
Proof.
  intros Hm. apply wn_quiet. intros fs. destruct (Hm fs) as (-> & -> & _). done.
Qed.



Lemma wn_try {A} (body : M A) (handler : exn → M A) :
  writes_nothing_from fs0 body → (∀ e, writes_nothing_from fs0 (handler e)) →
  writes_nothing_from fs0 (try_catch body handler).
Proof.
  intros Hm Hf fs Hfs. unfold try_catch. destruct (Hm fs Hfs) as [Hd Hw].
  destruct (res (body fs)) as [a|e]; cbn [disk events]; [done|].
  destruct (Hf e (disk (body fs)) Hd) as [Hd' Hw'].
  by rewrite writes_app, Hw, Hw'.
Qed.



Lemma wn_emit l msg : writes_nothing_from fs0 (emit (Logged l msg)).
Proof. by apply wn_quiet. Qed.




End Settled.

(** Listing the templates never throws. *)
Lemma list_templates_run (contextDir : jsstring) (fs : disk_t) :
  try_catch
    (names ← readdirSync contextDir;
     mret (Some (filter (λ f, endsWith f (js ".clawx.md") = true) names)))
    (λ _, mret None) fs
  = Outcome
      (Ok match fs !! contextDir with
          | Some (Dir entries) =>
              Some (filter (λ f, endsWith f (js ".clawx.md") = true)
                      (d_name <$> entries))
          | _ => None
          end) fs [].
Proof.
  unfold try_catch, readdirSync, readdirSyncWithFileTypes, mbind, M_bind,
    mret, M_ret.
  cbv beta zeta. by destruct (fs !! contextDir) as [[]|].
Qed.

(** The run, once the templates are listed. *)
Lemma ensureClawXContext_run `{Platform} (fs : disk_t) :
  let contextDir := join getResourcesDir (js "context") in
  ensureClawXContext fs
  = match fs !! contextDir with
    | None =>
        Outcome (Ok tt) fs
          [Logged Debug
             (js "ClawX context directory not found, skipping context merge")]
    | Some (Dir entries) =>
        (workspaceDirs ← resolveAllWorkspaceDirs;
         forEach workspaceDirs
           (syncWorkspace contextDir
              (filter (λ f, endsWith f (js ".clawx.md") = true)
                 (d_name <$> entries)))) fs
    | Some _ => Outcome (Ok tt) fs []
    end.
Proof.
  intros contextDir.
  unfold ensureClawXContext. fold contextDir.
  rewrite bind_run. unfold existsSync. cbn [res disk events].
  destruct (fs !! contextDir) as [n|] eqn:Hc; cbn [negb]; [|done].
  rewrite bind_run, list_templates_run, Hc. cbn [res disk events app].
  destruct n as [c|entries|]; try done.
  symmetry. apply outcome_eta.
Qed.




(** ** Template names *)

(** C8 fails on the code: [replace] with a string pattern rewrites the
    first occurrence of [.clawx.md], which is not the suffix when the
    pattern also occurs earlier in the name. *)
Theorem targetName_replaces_first_occurrence :
  let file := js "a.clawx.md.clawx.md" in
  endsWith file (js ".clawx.md") = true
  ∧ targetName file = js "a.md.clawx.md"
  ∧ suffixSubstitution file = js "a.clawx.md.md"
  ∧ targetName file ≠ suffixSubstitution file.
Proof. by vm_compute. Qed.

(** X9: where [.clawx.md] occurs only as the suffix, the first occurrence is
    the suffix and the two names agree. *)
Lemma targetName_when_only_suffix (file : jsstring) :
  search (js ".clawx.md") file = Some (length file - 9) →
  9 ≤ length file →
  targetName file = suffixSubstitution file.
Proof.
  intros Hs Hlen. unfold targetName, replace, suffixSubstitution. rewrite Hs.
  change (length (js ".clawx.md")) with 9.
  rewrite (drop_ge file) by lia. by rewrite app_nil_r.
Qed.

Example targetName_AGENTS : targetName (js "AGENTS.clawx.md") = js "AGENTS.md".
Proof. reflexivity. Qed.

(** ** The scenarios of the specification *)

(** [AGENTS.md] holds ["Hello\n"]: the first run writes the merged
    document, the second run writes nothing and leaves the disk as it is. *)
Example scenario_hello :
  let first := ensureClawXContext (H:=demo) (demo_disk (js "Hello" ++ nl)) in
  let second := ensureClawXContext (H:=demo) (disk first) in
  res first = Ok tt
  ∧ disk first !! js "/home/u/.openclaw/workspace/AGENTS.md"
    = Some (File (js "Hello" ++ nl ++ nl ++ js "<!-- clawx:begin -->" ++ nl
                    ++ js "Rules: be nice" ++ nl ++ js "<!-- clawx:end -->"
                    ++ nl))
  ∧ res second = Ok tt
  ∧ writes (events second) = []
  ∧ disk second = disk first.
Proof. vm_compute. by repeat split. Qed.

(** [AGENTS.md] holds the section alone: the repair pass unlinks it and
    the synchronisation that follows skips the missing document. *)
Example scenario_stale :
  let fs := demo_disk (js "<!-- clawx:begin -->" ++ nl ++ js "stale" ++ nl
                         ++ js "<!-- clawx:end -->") in
  let repaired := repairClawXOnlyBootstrapFiles (H:=demo) fs in
  let synced := ensureClawXContext (H:=demo) (disk repaired) in
  res repaired = Ok tt
  ∧ disk repaired !! js "/home/u/.openclaw/workspace/AGENTS.md" = None
  ∧ res synced = Ok tt
  ∧ writes (events synced) = []
  ∧ disk synced !! js "/home/u/.openclaw/workspace/AGENTS.md" = None.
Proof. vm_compute. by repeat split. Qed.

(** A workspace directory without documents stays without documents. *)
Example scenario_empty_workspace :
  let run := ensureClawXContext (H:=demo) demo_disk_empty_workspace in
  res run = Ok tt ∧ writes (events run) = []
  ∧ disk run = demo_disk_empty_workspace.
Proof. vm_compute. by repeat split. Qed.

(** No configuration file and no base directory: the default path. *)
Example scenario_default_workspace :
  res (resolveAllWorkspaceDirs (H:=demo) ∅)
  = Ok [js "/home/u/.openclaw/workspace"].
Proof. reflexivity. Qed.

(* ================================================================= *)
(** * Further properties of the code *)

(** ** The tests of [tests/unit/proxy.test.ts] *)

Example proxy_test_bare_host :
  Proxy.normalizeProxyServer (js "127.0.0.1:7890") = js "http://127.0.0.1:7890".
Proof. reflexivity. Qed.

Example proxy_test_explicit_scheme :
  Proxy.normalizeProxyServer (js "socks5://127.0.0.1:7891")
  = js "socks5://127.0.0.1:7891".
Proof. reflexivity. Qed.

Example proxy_test_advanced_overrides :
  Proxy.resolveProxySettings
    {| Proxy.proxyEnabled := true;
       Proxy.proxyServer := js "http://127.0.0.1:7890";
       Proxy.proxyHttpServer := [];
       Proxy.proxyHttpsServer := js "http://127.0.0.1:7892";
       Proxy.proxyAllServer := js "socks5://127.0.0.1:7891";
       Proxy.proxyBypassRules := [] |}
  = {| Proxy.httpProxy := js "http://127.0.0.1:7890";
       Proxy.httpsProxy := js "http://127.0.0.1:7892";
       Proxy.allProxy := js "socks5://127.0.0.1:7891";
       Proxy.bypassRules := [] |}.
Proof. reflexivity. Qed.

Example proxy_test_electron_rules :
  Proxy.buildElectronProxyConfig
    {| Proxy.proxyEnabled := true;
       Proxy.proxyServer := js "http://127.0.0.1:7890";
       Proxy.proxyHttpServer := [];
       Proxy.proxyHttpsServer := js "http://127.0.0.1:7892";
       Proxy.proxyAllServer := js "socks5://127.0.0.1:7891";
       Proxy.proxyBypassRules := js "<local>;localhost" |}
  = {| Proxy.mode := Proxy.fixed_servers;
       Proxy.proxyRules :=
         Some (js "http=http://127.0.0.1:7890;https=http://127.0.0.1:7892;socks5://127.0.0.1:7891");
       Proxy.electronBypassRules := Some (js "<local>;localhost") |}.
Proof. reflexivity. Qed.

Example proxy_test_env :
  Proxy.buildProxyEnv
    {| Proxy.proxyEnabled := true;
       Proxy.proxyServer := js "http://127.0.0.1:7890";
       Proxy.proxyHttpServer := [];
       Proxy.proxyHttpsServer := [];
       Proxy.proxyAllServer := js "socks5://127.0.0.1:7891";
       Proxy.proxyBypassRules := js "<local>;localhost" ++ nl ++ js "127.0.0.1" |}
  = {| Proxy.HTTP_PROXY := js "http://127.0.0.1:7890";
       Proxy.HTTPS_PROXY := js "http://127.0.0.1:7890";
       Proxy.ALL_PROXY := js "socks5://127.0.0.1:7891";
       Proxy.http_proxy := js "http://127.0.0.1:7890";
       Proxy.https_proxy := js "http://127.0.0.1:7890";
       Proxy.all_proxy := js "socks5://127.0.0.1:7891";
       Proxy.NO_PROXY := js "<local>,localhost,127.0.0.1";
       Proxy.no_proxy := js "<local>,localhost,127.0.0.1" |}.
Proof. reflexivity. Qed.

(** ** More about [trim] *)

Section Trim.
Implicit Types (s t w : jsstring).

Lemma starts_tight_trimStart s : starts_tight (trimStart s).
Proof.
  induction s as [|c s IH]; simpl; [done|].
  destruct (isWhiteSpace c) eqn:Hc; [done|]. simpl. done.
Qed.

Lemma trimStart_tight s : starts_tight s → trimStart s = s.
Proof. destruct s as [|c s]; simpl; [done|]. by intros ->. Qed.

Lemma ends_tight_trimEnd s : ends_tight (trimEnd s).
Proof.
  unfold ends_tight, trimEnd. rewrite reverse_involutive.
  apply starts_tight_trimStart.
Qed.

Lemma trimEnd_tight s : ends_tight s → trimEnd s = s.
Proof.
  unfold ends_tight, trimEnd. intros Hs.
  by rewrite (trimStart_tight _ Hs), reverse_involutive.
Qed.

(** [trimEnd] gives a prefix, so it keeps a tight start. *)
Lemma starts_tight_trimEnd s : starts_tight s → starts_tight (trimEnd s).
Proof.
  destruct (trimEnd_decomp s) as [w Hw]. intros Hs.
  destruct (trimEnd s) as [|c r]; [done|].
  rewrite Hw in Hs. exact Hs.
Qed.

Lemma trim_tight s : starts_tight (trim s) ∧ ends_tight (trim s).
Proof.
  unfold trim. split.
  - apply starts_tight_trimEnd, starts_tight_trimStart.
  - apply ends_tight_trimEnd.
Qed.

Lemma trim_fixed s : starts_tight s → ends_tight s → trim s = s.
Proof.
  intros H1 H2. unfold trim. by rewrite (trimStart_tight _ H1), trimEnd_tight.
Qed.

Lemma trim_idempotent s : trim (trim s) = trim s.
Proof. destruct (trim_tight s). by apply trim_fixed. Qed.

Lemma trimStart_decomp_blank s :
  ∃ w, s = w ++ trimStart s ∧ forallb isWhiteSpace w = true.
Proof.
  induction s as [|c s (w & IH & Hw)]; simpl.
  - by exists [].
  - destruct (isWhiteSpace c) eqn:Hc.
    + exists (c :: w). simpl. rewrite Hc, Hw. split; [by rewrite <-IH|done].
    + by exists [].
Qed.

Lemma forallb_reverse_inv {A} (f : A → bool) (l : list A) :
  forallb f (reverse l) = true → forallb f l = true.
Proof.
  intros Hl. rewrite <-(reverse_involutive l). by apply forallb_reverse.
Qed.

Lemma trimEnd_nil_blank s : trimEnd s = [] → forallb isWhiteSpace s = true.
Proof.
  unfold trimEnd. intros Hs. apply forallb_reverse_inv, trimStart_nil_blank.
  apply (f_equal reverse) in Hs. by rewrite reverse_involutive in Hs.
Qed.

Lemma trim_nil_blank s : trim s = [] → forallb isWhiteSpace s = true.
Proof.
  unfold trim. intros Hs%trimEnd_nil_blank.
  destruct (trimStart_decomp_blank s) as (w & Hdec & Hw).
  rewrite Hdec, forallb_app, Hw. done.
Qed.

Lemma trim_nil_iff s : trim s = [] ↔ forallb isWhiteSpace s = true.
Proof. split; [apply trim_nil_blank | apply trim_blank]. Qed.

Lemma ends_tight_app s t : t ≠ [] → ends_tight t → ends_tight (s ++ t).
Proof.
  unfold ends_tight. intros Hne Ht. rewrite reverse_app.
  destruct (reverse t) as [|c r] eqn:Hr; [|done].
  apply (f_equal reverse) in Hr. rewrite reverse_involutive in Hr. done.
Qed.

Lemma truthy_true s : truthy s = true ↔ s ≠ [].
Proof. by destruct s. Qed.

Lemma truthy_false s : truthy s = false ↔ s = [].
Proof. by destruct s. Qed.

End Trim.

(** ** Proxy normalisation *)

Section ProxyNormalize.
Import Proxy.
Implicit Types (x v : jsstring) (st : ProxySettings).

Lemma normalize_unfold x :
  normalizeProxyServer x
  = if truthy (trim x) then
      if hasScheme (trim x) then trim x else js "http://" ++ trim x
    else [].
Proof.
  unfold normalizeProxyServer, trimValue. by destruct (truthy (trim x)).
Qed.

Lemma hasScheme_http v : hasScheme (js "http://" ++ v) = true.
Proof. reflexivity. Qed.

Lemma normalize_nil_iff x :
  normalizeProxyServer x = [] ↔ trim x = [].
Proof.
  rewrite normalize_unfold. destruct (trim x) as [|c r] eqn:Ht; [done|].
  cbn [truthy]. destruct (hasScheme (c :: r)); split; done.
Qed.

Lemma normalize_tight x :
  starts_tight (normalizeProxyServer x) ∧ ends_tight (normalizeProxyServer x).
Proof.
  rewrite normalize_unfold. destruct (trim_tight x) as [H1 H2].
  destruct (truthy (trim x)) eqn:Hv; [|done].
  destruct (hasScheme (trim x)); [done|]. split; [done|].
  apply ends_tight_app; [by apply truthy_true|done].
Qed.

Lemma normalize_scheme x :
  normalizeProxyServer x ≠ [] → hasScheme (normalizeProxyServer x) = true.
Proof.
  rewrite normalize_unfold. destruct (truthy (trim x)); [|done].
  destruct (hasScheme (trim x)) eqn:Hs; [done|]. intros _. apply hasScheme_http.
Qed.

(** A string that is trimmed and carries a scheme is left as it is. *)
Lemma normalize_fixed v :
  starts_tight v → ends_tight v → hasScheme v = true →
  normalizeProxyServer v = v.
Proof.
  intros H1 H2 Hs. rewrite normalize_unfold, (trim_fixed v H1 H2), Hs.
  by destruct v.
Qed.

Lemma normalize_normalize x :
  normalizeProxyServer (normalizeProxyServer x) = normalizeProxyServer x.
Proof.
  destruct (normalize_tight x) as [H1 H2].
  destruct (normalizeProxyServer x) as [|c r] eqn:Hn; [done|].
  apply normalize_fixed; [done..|].
  rewrite <-Hn. apply normalize_scheme. by rewrite Hn.
Qed.

Lemma or_else_nil a b : or_else a b = [] ↔ a = [] ∧ b = [].
Proof. unfold or_else. destruct a; simpl; intuition congruence. Qed.

End ProxyNormalize.

(** X10: [normalizeProxyServer] is idempotent: normalising an already
    normalised value changes nothing. *)
Theorem normalizeProxyServer_idempotent (x : jsstring) :
  Proxy.normalizeProxyServer (Proxy.normalizeProxyServer x)
  = Proxy.normalizeProxyServer x.
Proof. apply normalize_normalize. Qed.

(** X11: the result of [normalizeProxyServer] is empty exactly when the
    input is blank; otherwise it is trimmed, carries a scheme, and is
    the trimmed input itself when that already carries one. *)
Theorem normalizeProxyServer_result (x : jsstring) :
  (Proxy.normalizeProxyServer x = [] ↔ forallb isWhiteSpace x = true)
  ∧ (Proxy.normalizeProxyServer x ≠ [] →
     Proxy.hasScheme (Proxy.normalizeProxyServer x) = true
     ∧ trim (Proxy.normalizeProxyServer x) = Proxy.normalizeProxyServer x)
  ∧ (Proxy.hasScheme (trim x) = true → Proxy.normalizeProxyServer x = trim x)
  ∧ (trim x ≠ [] → Proxy.hasScheme (trim x) = false →
     Proxy.normalizeProxyServer x = js "http://" ++ trim x).
Proof.
  split; [|split; [|split]].
  - by rewrite normalize_nil_iff, trim_nil_iff.
  - intros Hne. split; [by apply normalize_scheme|].
    destruct (normalize_tight x). by apply trim_fixed.
  - intros Hs. rewrite normalize_unfold, Hs. by destruct (trim x).
  - intros Hne Hs. rewrite normalize_unfold, Hs.
    by apply truthy_true in Hne as ->.
Qed.

(** X12: whatever the settings, every proxy that [resolveProxySettings]
    returns is empty or a normalised URL (a fixed point of
    [normalizeProxyServer]); the HTTP and HTTPS proxies are set as soon
    as the base proxy or the ALL proxy is; and with the three advanced
    fields blank all three results are the normalised base proxy. *)
Theorem resolveProxySettings_invariants (st : Proxy.ProxySettings) :
  let r := Proxy.resolveProxySettings st in
  (Proxy.normalizeProxyServer (Proxy.httpProxy r) = Proxy.httpProxy r
   ∧ Proxy.normalizeProxyServer (Proxy.httpsProxy r) = Proxy.httpsProxy r
   ∧ Proxy.normalizeProxyServer (Proxy.allProxy r) = Proxy.allProxy r
   ∧ trim (Proxy.bypassRules r) = Proxy.bypassRules r)
  ∧ (Proxy.allProxy r ≠ [] →
     Proxy.httpProxy r ≠ [] ∧ Proxy.httpsProxy r ≠ [])
  ∧ (trim (Proxy.proxyHttpServer st) = [] →
     trim (Proxy.proxyHttpsServer st) = [] →
     trim (Proxy.proxyAllServer st) = [] →
     Proxy.httpProxy r = Proxy.normalizeProxyServer (Proxy.proxyServer st)
     ∧ Proxy.httpsProxy r = Proxy.normalizeProxyServer (Proxy.proxyServer st)
     ∧ Proxy.allProxy r = Proxy.normalizeProxyServer (Proxy.proxyServer st)).
Proof.
  intros r. split; [|split].
  - unfold r, Proxy.resolveProxySettings, Proxy.or_else, Proxy.trimValue.
    cbn [Proxy.httpProxy Proxy.httpsProxy Proxy.allProxy Proxy.bypassRules].
    repeat split; repeat case_match;
      auto using normalize_normalize, trim_idempotent.
  - unfold r, Proxy.resolveProxySettings.
    cbn [Proxy.httpProxy Proxy.httpsProxy Proxy.allProxy].
    rewrite !or_else_nil. intuition congruence.
  - intros H1%normalize_nil_iff H2%normalize_nil_iff H3%normalize_nil_iff.
    unfold r, Proxy.resolveProxySettings.
    cbn [Proxy.httpProxy Proxy.httpsProxy Proxy.allProxy].
    rewrite H1, H2, H3. unfold Proxy.or_else. cbn [truthy].
    by destruct (Proxy.normalizeProxyServer (Proxy.proxyServer st)).
Qed.

Lemma resolveProxySettings_invariants_witness :
  let st := {| Proxy.proxyEnabled := true;
               Proxy.proxyServer := js "127.0.0.1:7890";
               Proxy.proxyHttpServer := [];
               Proxy.proxyHttpsServer := js "  ";
               Proxy.proxyAllServer := [];
               Proxy.proxyBypassRules := js "<local>" |} in
  let r := Proxy.resolveProxySettings st in
  Proxy.httpProxy r = Proxy.normalizeProxyServer (Proxy.proxyServer st)
  ∧ Proxy.httpsProxy r = Proxy.normalizeProxyServer (Proxy.proxyServer st)
  ∧ Proxy.allProxy r = Proxy.normalizeProxyServer (Proxy.proxyServer st).
Proof.
  apply (proj2 (proj2 (resolveProxySettings_invariants
    {| Proxy.proxyEnabled := true;
       Proxy.proxyServer := js "127.0.0.1:7890";
       Proxy.proxyHttpServer := [];
       Proxy.proxyHttpsServer := js "  ";
       Proxy.proxyAllServer := [];
       Proxy.proxyBypassRules := js "<local>" |}))); reflexivity.
Defined.

(** X13: [buildElectronProxyConfig] answers [direct] exactly when the
    proxy is disabled or none of the four server fields holds a value;
    otherwise it answers [fixed_servers] with a non-empty rule string,
    and with bypass rules exactly when the trimmed bypass setting is
    not empty. *)
Theorem buildElectronProxyConfig_direct_iff (st : Proxy.ProxySettings) :
  let c := Proxy.buildElectronProxyConfig st in
  (Proxy.mode c = Proxy.direct
   ↔ Proxy.proxyEnabled st = false ∨ no_server st)
  ∧ (Proxy.mode c = Proxy.direct →
     Proxy.proxyRules c = None ∧ Proxy.electronBypassRules c = None)
  ∧ (Proxy.mode c = Proxy.fixed_servers →
     (∃ rules, Proxy.proxyRules c = Some rules ∧ rules ≠ [])
     ∧ Proxy.electronBypassRules c
       = if bool_decide (trim (Proxy.proxyBypassRules st) = []) then None
         else Some (trim (Proxy.proxyBypassRules st))).
Proof.
  intros c. unfold c, Proxy.buildElectronProxyConfig, no_server.
  destruct (Proxy.proxyEnabled st); cbn [negb];
    [|split; [intuition congruence|by split]].
  rewrite <-!normalize_nil_iff. cbv zeta.
  unfold Proxy.resolveProxySettings, Proxy.or_else, Proxy.trimValue.
  cbn [Proxy.httpProxy Proxy.httpsProxy Proxy.allProxy Proxy.bypassRules].
  destruct (Proxy.normalizeProxyServer (Proxy.proxyServer st)) as [|a1 r1];
  destruct (Proxy.normalizeProxyServer (Proxy.proxyHttpServer st)) as [|a2 r2];
  destruct (Proxy.normalizeProxyServer (Proxy.proxyHttpsServer st)) as [|a3 r3];
  destruct (Proxy.normalizeProxyServer (Proxy.proxyAllServer st)) as [|a4 r4];
    cbn [truthy app length]; rewrite ?bool_decide_eq_true_2 by done;
    rewrite ?bool_decide_eq_false_2 by done;
    cbn [Proxy.mode Proxy.proxyRules Proxy.electronBypassRules];
    (split; [|split]);
    try (intuition congruence);
    try (intros _; split; [eexists; split; [reflexivity|done]|];
         destruct (trim (Proxy.proxyBypassRules st)); done).
Qed.

Lemma buildElectronProxyConfig_direct_iff_witness :
  let c := Proxy.buildElectronProxyConfig
             {| Proxy.proxyEnabled := true;
                Proxy.proxyServer := js " ";
                Proxy.proxyHttpServer := [];
                Proxy.proxyHttpsServer := [];
                Proxy.proxyAllServer := [];
                Proxy.proxyBypassRules := js "<local>" |} in
  Proxy.proxyRules c = None ∧ Proxy.electronBypassRules c = None.
Proof.
  apply (proj1 (proj2 (buildElectronProxyConfig_direct_iff
    {| Proxy.proxyEnabled := true;
       Proxy.proxyServer := js " ";
       Proxy.proxyHttpServer := [];
       Proxy.proxyHttpsServer := [];
       Proxy.proxyAllServer := [];
       Proxy.proxyBypassRules := js "<local>" |}))).
  reflexivity.
Defined.

(** ** Bypass rules *)

Section BypassRules.
Import Proxy.
Implicit Types (s x : jsstring) (L : list jsstring).

Lemma splitRules_cons c s :
  splitRules (c :: s)
  = if isRuleSeparator c then [] :: splitRules s
    else match splitRules s with
         | piece :: pieces => (c :: piece) :: pieces
         | [] => [[c]]
         end.
Proof. reflexivity. Qed.

Lemma splitRules_not_nil s : splitRules s ≠ [].
Proof.
  destruct s as [|c s]; [done|]. rewrite splitRules_cons.
  destruct (isRuleSeparator c); [done|]. by destruct (splitRules s).
Qed.













End BypassRules.



(** X15: Electron and the Gateway environment agree on whether a proxy
    is in use: [buildElectronProxyConfig] answers [direct] exactly when
    [buildProxyEnv] leaves the HTTP, HTTPS and ALL proxy variables
    empty. *)
Theorem proxy_env_agrees_with_electron (st : Proxy.ProxySettings) :
  Proxy.mode (Proxy.buildElectronProxyConfig st) = Proxy.direct
  ↔ Proxy.HTTP_PROXY (Proxy.buildProxyEnv st) = []
    ∧ Proxy.HTTPS_PROXY (Proxy.buildProxyEnv st) = []
    ∧ Proxy.ALL_PROXY (Proxy.buildProxyEnv st) = [].
Proof.
  unfold Proxy.buildElectronProxyConfig, Proxy.buildProxyEnv.
  destruct (Proxy.proxyEnabled st); cbn [negb]; [|done]. cbv zeta.
  cbn [Proxy.HTTP_PROXY Proxy.HTTPS_PROXY Proxy.ALL_PROXY].
  destruct (Proxy.resolveProxySettings st) as [h hs a b].
  cbn [Proxy.httpProxy Proxy.httpsProxy Proxy.allProxy Proxy.bypassRules].
  unfold Proxy.or_else.
  destruct h as [|h0 h], hs as [|s0 hs], a as [|a0 a];
    cbn [truthy app length]; rewrite ?bool_decide_eq_true_2 by done;
    rewrite ?bool_decide_eq_false_2 by done; cbn [Proxy.mode];
    intuition congruence.
Qed.

(** ** More about the merge *)

Section MergeMore.
Implicit Types (d s p q : jsstring).

(** With its markers in order, a document splits once and for all into
    what comes before the section and what comes after it. *)
Lemma merge_in_order_shape d :
  markers_in_order d →
  ∃ p q, search CLAWX_BEGIN p = None ∧ search CLAWX_END p = None
         ∧ ∀ s, mergeClawXSection d s = p ++ wrapped s ++ q.
Proof.
  intros [[Hb He]|(b & e & Hb & He & Hlt)].
  - exists (trimEnd d ++ nl ++ nl), nl. split; [|split].
    + by apply search_nlnl_BEGIN, search_trimEnd_None.
    + by apply search_nlnl_END, search_trimEnd_None.
    + intros s. rewrite merge_append by auto. by rewrite <-!(assoc_L (++)).
  - exists (take b d), (drop (e + length CLAWX_END) d). split; [|split].
    + apply (search_take _ _ _ _ Hb). rewrite length_BEGIN. lia.
    + apply (search_take _ _ _ _ He). lia.
    + intros s. by apply merge_replace.
Qed.

Lemma trimEnd_decomp_blank d :
  ∃ w, d = trimEnd d ++ w ∧ forallb isWhiteSpace w = true.
Proof.
  unfold trimEnd.
  destruct (trimStart_decomp_blank (reverse d)) as (w & Hw & Hblank).
  exists (reverse w). split; [|by apply forallb_reverse].
  rewrite <-reverse_app, <-Hw. by rewrite reverse_involutive.
Qed.

Lemma blank_trimEnd d :
  forallb isWhiteSpace (trimEnd d) = forallb isWhiteSpace d.
Proof.
  destruct (trimEnd_decomp_blank d) as (w & Hd & Hw).
  rewrite Hd at 2. rewrite forallb_app, Hw. by rewrite andb_true_r.
Qed.

Lemma bool_decide_trim_nil d :
  bool_decide (trim d = []) = forallb isWhiteSpace d.
Proof.
  destruct (forallb isWhiteSpace d) eqn:Hd.
  - apply bool_decide_eq_true_2. by apply trim_nil_iff.
  - apply bool_decide_eq_false_2. intros Ht%trim_nil_iff. congruence.
Qed.

End MergeMore.

(** X1: the last merge wins.  When the markers of the document are in
    order and the first section holds no end marker, merging a section
    and then another one gives what merging the second one alone gives:
    an updated template replaces the old section and leaves no trace of
    it. *)
Theorem merge_last_wins (d s s' : jsstring) :
  includes s CLAWX_END = false →
  (includes d CLAWX_BEGIN = false ∧ includes d CLAWX_END = false)
  ∨ (0 ≤ indexOf d CLAWX_BEGIN < indexOf d CLAWX_END)%Z →
  mergeClawXSection (mergeClawXSection d s) s' = mergeClawXSection d s'.
Proof.
  intros Hs%includes_false%search_trim_None Hd%markers_in_order_intro.
  destruct (merge_in_order_shape d Hd) as (p & q & Hb & He & Hm).
  rewrite (Hm s), (Hm s'). by apply merge_canon.
Qed.

Lemma merge_last_wins_witness :
  mergeClawXSection
    (mergeClawXSection (js "intro" ++ nl) (js "version 1")) (js "version 2")
  = mergeClawXSection (js "intro" ++ nl) (js "version 2").
Proof.
  apply (merge_last_wins (js "intro" ++ nl) (js "version 1") (js "version 2")).
  - reflexivity.
  - left. split; reflexivity.
Defined.

(** X2: merging does not change what the repair pass thinks of a
    document.  With the markers in order and no end marker in the
    section, a document that already carries a section is hollow after
    the merge exactly when it was hollow before, and a document without
    markers becomes hollow exactly when it was blank: a document with
    content of its own is never turned into one that the repair pass
    would delete. *)
Theorem merge_hollow_status (d s : jsstring) :
  includes s CLAWX_END = false →
  (includes d CLAWX_BEGIN = false ∧ includes d CLAWX_END = false)
  ∨ (0 ≤ indexOf d CLAWX_BEGIN < indexOf d CLAWX_END)%Z →
  isHollowBootstrap (mergeClawXSection d s)
  = if includes d CLAWX_BEGIN then isHollowBootstrap d
    else forallb isWhiteSpace d.
Proof.
  intros Hs%includes_false%search_trim_None Hd.
  destruct Hd as [[Hib Hie]|Hlt].
  - rewrite Hib. apply includes_false in Hib, Hie.
    rewrite merge_append by auto.
    replace (trimEnd d ++ nl ++ nl ++ wrapped s ++ nl)
      with ((trimEnd d ++ nl ++ nl) ++ wrapped s ++ nl)
      by (by rewrite <-!(assoc_L (++))).
    rewrite hollow_canon;
      [|by apply search_nlnl_BEGIN, search_trimEnd_None
       |by apply search_nlnl_END, search_trimEnd_None|done].
    rewrite !bool_decide_trim_nil, forallb_app, blank_trimEnd.
    change (forallb isWhiteSpace (nl ++ nl)) with true.
    change (forallb isWhiteSpace nl) with true.
    by rewrite !andb_true_r.
  - assert (includes d CLAWX_BEGIN = true) as ->.
    { unfold includes. apply negb_true_iff, Z.eqb_neq. lia. }
    unfold indexOf in Hlt.
    destruct (search CLAWX_BEGIN d) as [b|] eqn:Hb; [|lia].
    destruct (search CLAWX_END d) as [e|] eqn:He; [|lia].
    rewrite (merge_replace _ _ _ _ Hb He).
    rewrite hollow_canon; [| | |done].
    + unfold isHollowBootstrap.
      rewrite (indexOf_Some _ _ _ Hb), (indexOf_Some _ _ _ He).
      destruct (Z.eqb_spec (Z.of_nat b) (-1)) as [?|_]; [lia|].
      destruct (Z.eqb_spec (Z.of_nat e) (-1)) as [?|_]; [lia|].
      cbn [orb]. rewrite slice_0. unfold len.
      by rewrite <-Nat2Z.inj_add, sliceFrom_nat.
    + apply (search_take _ _ _ _ Hb). rewrite length_BEGIN. lia.
    + apply (search_take _ _ _ _ He). lia.
Qed.

Lemma merge_hollow_status_witness :
  isHollowBootstrap (mergeClawXSection (js "Hello" ++ nl) (js "Rules"))
  = if includes (js "Hello" ++ nl) CLAWX_BEGIN
    then isHollowBootstrap (js "Hello" ++ nl)
    else forallb isWhiteSpace (js "Hello" ++ nl).
Proof.
  apply (merge_hollow_status (js "Hello" ++ nl) (js "Rules")).
  - reflexivity.
  - left. split; reflexivity.
Defined.

(** ** Composing runs *)

Section Compose.
Context {R : disk_t → disk_t → Prop}.
Context (R_refl : ∀ fs, R fs fs).
Context (R_trans : ∀ fs1 fs2 fs3, R fs1 fs2 → R fs2 fs3 → R fs1 fs3).

Lemma keeps_same {A} (m : M A) : (∀ fs, disk (m fs) = fs) → keeps R m.
Proof. intros Hm fs. rewrite Hm. apply R_refl. Qed.

Lemma keeps_bind {A B} (m : M A) (f : A → M B) :
  keeps R m → (∀ a, keeps R (f a)) → keeps R (m ≫= f).
Proof.
  intros Hm Hf fs. rewrite bind_run. specialize (Hm fs).
  destruct (res (m fs)) as [a|e]; cbn [disk]; [|done].
  eapply R_trans; [exact Hm | apply Hf].
Qed.

Lemma keeps_try {A} (body : M A) (handler : exn → M A) :
  keeps R body → (∀ e, keeps R (handler e)) → keeps R (try_catch body handler).
Proof.
  intros Hm Hf fs. unfold try_catch. specialize (Hm fs).
  destruct (res (body fs)) as [a|e]; cbn [disk]; [done|].
  eapply R_trans; [exact Hm | apply Hf].
Qed.

Lemma keeps_forEach {A} (l : list A) (body : A → M unit) :
  (∀ x, keeps R (body x)) → keeps R (forEach l body).
Proof.
  intros Hb. induction l as [|x l IH]; simpl.
  - by apply keeps_same.
  - apply keeps_bind; [apply Hb | by intros _].
Qed.


End Compose.

Section Totality.
Implicit Types (fs : disk_t).

Lemma never_throws_ret {A} (a : A) : never_throws (mret a).
Proof. intros fs. by exists a. Qed.

Lemma never_throws_bind {A B} (m : M A) (f : A → M B) :
  never_throws m → (∀ a, never_throws (f a)) → never_throws (m ≫= f).
Proof.
  intros Hm Hf fs. rewrite bind_run. destruct (Hm fs) as [a ->].
  cbn [res]. apply Hf.
Qed.

Lemma never_throws_try {A} (body : M A) (handler : exn → M A) :
  (∀ e, never_throws (handler e)) → never_throws (try_catch body handler).
Proof.
  intros Hf fs. unfold try_catch.
  destruct (res (body fs)) as [a|e] eqn:Hres; [rewrite Hres; eauto|].
  cbn [res]. apply Hf.
Qed.

Lemma never_throws_forEach {A} (l : list A) (body : A → M unit) :
  (∀ x, never_throws (body x)) → never_throws (forEach l body).
Proof.
  intros Hb. induction l as [|x l IH]; simpl.
  - apply never_throws_ret.
  - apply never_throws_bind; [apply Hb | by intros _].
Qed.

Lemma never_throws_emit e : never_throws (emit e).
Proof. intros fs. by exists tt. Qed.

Lemma never_throws_existsSync p : never_throws (existsSync p).
Proof. intros fs. eauto. Qed.

Lemma emits_ret (Q : event → Prop) {A} (a : A) : emits Q (mret a).
Proof. intros fs. constructor. Qed.

Lemma emits_bind (Q : event → Prop) {A B} (m : M A) (f : A → M B) :
  emits Q m → (∀ a, emits Q (f a)) → emits Q (m ≫= f).
Proof.
  intros Hm Hf fs. rewrite bind_run. specialize (Hm fs).
  destruct (res (m fs)) as [a|e]; cbn [events]; [|done].
  apply Forall_app. split; [done | apply Hf].
Qed.

Lemma emits_try (Q : event → Prop) {A} (body : M A) (handler : exn → M A) :
  emits Q body → (∀ e, emits Q (handler e)) → emits Q (try_catch body handler).
Proof.
  intros Hm Hf fs. unfold try_catch. specialize (Hm fs).
  destruct (res (body fs)) as [a|e]; cbn [events]; [done|].
  apply Forall_app. split; [done | apply Hf].
Qed.

Lemma emits_forEach (Q : event → Prop) {A} (l : list A) (body : A → M unit) :
  (∀ x, x ∈ l → emits Q (body x)) → emits Q (forEach l body).
Proof.
  induction l as [|x l IH]; intros Hb; simpl.
  - apply emits_ret.
  - apply emits_bind; [apply Hb; left|]. intros _. apply IH.
    intros y Hy. apply Hb. by right.
Qed.

Lemma emits_nothing (Q : event → Prop) {A} (m : M A) :
  (∀ fs, events (m fs) = []) → emits Q m.
Proof. intros Hm fs. rewrite Hm. constructor. Qed.

Lemma emits_pure (Q : event → Prop) {A} (P : A → Prop) (m : M A) :
  pure_with P m → emits Q m.
Proof.
  intros Hm. apply emits_nothing. intros fs. by destruct (Hm fs) as (_ & -> & _).
Qed.

End Totality.

(** ** The repair pass *)

Section Repair.
Context `{Platform}.
Implicit Types (fs : disk_t) (p : jsstring).

Lemma only_unlinks_hollow_refl fs : only_unlinks_hollow fs fs.
Proof. intros p. by left. Qed.

Lemma only_unlinks_hollow_trans fs1 fs2 fs3 :
  only_unlinks_hollow fs1 fs2 → only_unlinks_hollow fs2 fs3 →
  only_unlinks_hollow fs1 fs3.
Proof.
  intros H12 H23 p. destruct (H23 p) as [->|(Hn & c & Hc & Hh)]; [apply H12|].
  right. split; [done|]. exists c. split; [|done].
  destruct (H12 p) as [<-|(Hn' & _)]; [done|congruence].
Qed.

(** What the repair pass does with one entry, whatever is found there. *)
Lemma repairFile_cases workspaceDir file fs :
  let filePath := join workspaceDir file in
  repairFile workspaceDir file fs
  = match fs !! filePath with
    | Some (File content) =>
        if isHollowBootstrap content then
          Outcome (Ok tt) (delete filePath fs)
            [Unlinked filePath;
             Logged Info
               (js "Removed ClawX-only bootstrap file for re-seeding: "
                  ++ file ++ js " (" ++ workspaceDir ++ js ")")]
        else Outcome (Ok tt) fs []
    | _ => Outcome (Ok tt) fs []
    end.
Proof.
  intros filePath.
  destruct (fs !! filePath) as [[content| |]|] eqn:Hf;
    [by apply repairFile_run|..];
    unfold repairFile, try_catch, mbind, M_bind, readFileSync, mret, M_ret;
    fold filePath; cbv beta zeta; by rewrite Hf.
Qed.

Lemma repairFile_never_throws workspaceDir file :
  never_throws (repairFile workspaceDir file).
Proof.
  intros fs. rewrite repairFile_cases. cbv zeta.
  repeat case_match; eauto.
Qed.

Lemma repairFile_keeps workspaceDir file :
  keeps only_unlinks_hollow (repairFile workspaceDir file).
Proof.
  intros fs. rewrite repairFile_cases. cbv zeta.
  destruct (fs !! join workspaceDir file) as [[content| |]|] eqn:Hf;
    try apply only_unlinks_hollow_refl.
  destruct (isHollowBootstrap content) eqn:Hh;
    [|apply only_unlinks_hollow_refl].
  cbn [disk]. intros p. destruct (decide (join workspaceDir file = p)) as [<-|Hne].
  - right. rewrite lookup_delete_eq. eauto.
  - left. by rewrite lookup_delete_ne.
Qed.

Lemma repairFile_emits workspaceDir file :
  emits reads_or_unlinks (repairFile workspaceDir file).
Proof.
  intros fs. rewrite repairFile_cases. cbv zeta.
  repeat case_match; cbn [events]; repeat constructor.
Qed.



(** Listing the documents of a workspace never throws. *)
Lemma list_documents_run (workspaceDir : jsstring) fs :
  try_catch
    (names ← readdirSync workspaceDir;
     mret (Some (filter (λ f, endsWith f (js ".md") = true) names)))
    (λ _, mret None) fs
  = Outcome
      (Ok match fs !! workspaceDir with
          | Some (Dir entries) =>
              Some (filter (λ f, endsWith f (js ".md") = true)
                      (d_name <$> entries))
          | _ => None
          end) fs [].
Proof.
  unfold try_catch, readdirSync, readdirSyncWithFileTypes, mbind, M_bind,
    mret, M_ret.
  cbv beta zeta. by destruct (fs !! workspaceDir) as [[]|].
Qed.

Lemma repairWorkspace_run workspaceDir fs :
  repairWorkspace workspaceDir fs
  = match fs !! workspaceDir with
    | Some (Dir entries) =>
        forEach (filter (λ f, endsWith f (js ".md") = true)
                   (d_name <$> entries))
          (repairFile workspaceDir) fs
    | _ => Outcome (Ok tt) fs []
    end.
Proof.
  unfold repairWorkspace. rewrite bind_run. unfold existsSync.
  cbn [res disk events].
  destruct (fs !! workspaceDir) as [n|] eqn:Hw; cbn [negb]; [|done].
  rewrite bind_run, list_documents_run, Hw. cbn [res disk events app].
  destruct n as [c|entries|]; try done.
  symmetry. apply outcome_eta.
Qed.

Lemma repairWorkspace_never_throws workspaceDir :
  never_throws (repairWorkspace workspaceDir).
Proof.
  intros fs. rewrite repairWorkspace_run.
  destruct (fs !! workspaceDir) as [[c|entries|]|]; eauto.
  apply never_throws_forEach, repairFile_never_throws.
Qed.

Lemma repairWorkspace_keeps workspaceDir :
  keeps only_unlinks_hollow (repairWorkspace workspaceDir).
Proof.
  intros fs. rewrite repairWorkspace_run.
  destruct (fs !! workspaceDir) as [[c|entries|]|];
    try apply only_unlinks_hollow_refl.
  apply (keeps_forEach only_unlinks_hollow_refl only_unlinks_hollow_trans).
  apply repairFile_keeps.
Qed.

Lemma repairWorkspace_emits workspaceDir :
  emits reads_or_unlinks (repairWorkspace workspaceDir).
Proof.
  intros fs. rewrite repairWorkspace_run.
  destruct (fs !! workspaceDir) as [[c|entries|]|]; try constructor.
  apply emits_forEach. intros file _. apply repairFile_emits.
Qed.

Lemma repair_unfold :
  repairClawXOnlyBootstrapFiles
  = (workspaceDirs ← resolveAllWorkspaceDirs;
     forEach workspaceDirs repairWorkspace).
Proof. reflexivity. Qed.

(** The run of the repair pass, once the workspaces are known. *)
Lemma repair_run fs :
  ∃ dirs, resolveAllWorkspaceDirs fs = Outcome (Ok dirs) fs []
          ∧ repairClawXOnlyBootstrapFiles fs = forEach dirs repairWorkspace fs.
Proof.
  destruct (discovery_run fs) as [dirs Hdirs]. exists dirs. split; [done|].
  rewrite repair_unfold, bind_run, Hdirs. cbn [res disk events app].
  symmetry. apply outcome_eta.
Qed.

End Repair.

(** X3: the repair pass never throws, never writes a file or makes a
    directory, and changes the disk only by removing files whose
    content passes the hollow test: every other path holds afterwards
    exactly what it held before. *)
Theorem repair_only_removes_hollow `{Platform} (fs : disk_t) :
  let run := repairClawXOnlyBootstrapFiles fs in
  res run = Ok tt
  ∧ only_unlinks_hollow fs (disk run)
  ∧ Forall reads_or_unlinks (events run)
  ∧ writes (events run) = [].
Proof.
  destruct (repair_run fs) as (dirs & _ & Hrun). cbv zeta. rewrite Hrun.
  assert (Forall reads_or_unlinks (events (forEach dirs repairWorkspace fs)))
    as Hev.
  { apply emits_forEach. intros ws _. apply repairWorkspace_emits. }
  split; [|split; [|split; [done|]]].
  - destruct (never_throws_forEach dirs repairWorkspace
                repairWorkspace_never_throws fs) as [[] Hok]. done.
  - apply (keeps_forEach only_unlinks_hollow_refl only_unlinks_hollow_trans).
    apply repairWorkspace_keeps.
  - induction Hev as [|e evs He _ IH]; [done|].
    destruct e; simpl in *; done.
Qed.



(** ** Discovery finds every workspace *)

Section Complete.
Context `{Platform}.
Implicit Types (fs : disk_t) (dirs : list jsstring) (x y : jsstring).

Lemma set_add_here x dirs : x ∈ set_add x dirs.
Proof.
  unfold set_add. case_bool_decide; [done|].
  apply elem_of_app. right. constructor.
Qed.

Lemma set_add_mono x y dirs : x ∈ dirs → x ∈ set_add y dirs.
Proof.
  intros Hx. unfold set_add. case_bool_decide; [done|].
  apply elem_of_app. by left.
Qed.

Lemma addWorkspace_mono x ws dirs : x ∈ dirs → x ∈ addWorkspace ws dirs.
Proof.
  intros Hx. unfold addWorkspace. repeat case_match; auto using set_add_mono.
Qed.

Lemma addWorkspace_here w dirs :
  trim w ≠ [] →
  replaceLeadingTilde w homedir ∈ addWorkspace (Some (JString w)) dirs.
Proof.
  intros Hw%truthy_true. unfold addWorkspace. rewrite Hw. apply set_add_here.
Qed.

Lemma foldl_mono {A} (f : list jsstring → A → list jsstring) (l : list A)
    x dirs :
  (∀ acc a, x ∈ acc → x ∈ f acc a) → x ∈ dirs → x ∈ foldl f dirs l.
Proof.
  intros Hf. revert dirs. induction l as [|a l IH]; intros dirs Hx; simpl; auto.
Qed.

Lemma foldl_reaches {A} (f : list jsstring → A → list jsstring) (l : list A)
    x a dirs :
  (∀ acc b, x ∈ acc → x ∈ f acc b) → (∀ acc, x ∈ f acc a) → a ∈ l →
  x ∈ foldl f dirs l.
Proof.
  intros Hmono Ha. revert dirs.
  induction l as [|b l IH]; intros dirs Hin; [by apply elem_of_nil in Hin|].
  simpl. apply elem_of_cons in Hin as [<-|Hin].
  - by apply foldl_mono.
  - by apply IH.
Qed.

Lemma workspacesFromConfig_parsed dir dirs fs text config :
  fs !! join dir (js "openclaw.json") = Some (File text) →
  JSON_parse text = Some config →
  workspacesFromConfig dir dirs fs
  = Outcome (Ok (configuredWorkspaces config dirs)) fs [].
Proof.
  intros Hc Hp.
  unfold workspacesFromConfig, configuredWorkspaces, try_catch, mbind, M_bind,
    existsSync, readFileSync, parseJSON, mret, M_ret.
  cbv beta zeta.
  repeat (first [rewrite Hc | rewrite Hp]; cbn [res disk events app]).
  destruct (prop (prop (Some config) (js "agents")) (js "list"))
    as [[| | | |agents|]|]; cbn [res disk events app]; done.
Qed.

Lemma workspacesFromScan_listed dir dirs fs entries :
  fs !! dir = Some (Dir entries) →
  workspacesFromScan dir dirs fs
  = Outcome (Ok (scannedWorkspaces dir entries dirs)) fs [].
Proof.
  intros Hd.
  unfold workspacesFromScan, scannedWorkspaces, try_catch, mbind, M_bind,
    readdirSyncWithFileTypes, mret, M_ret.
  cbv beta zeta. by repeat (rewrite Hd; cbn [res disk events app]).
Qed.

Lemma scannedWorkspaces_mono dir entries dirs x :
  x ∈ dirs → x ∈ scannedWorkspaces dir entries dirs.
Proof.
  apply foldl_mono. intros acc a Hx. case_match; auto using set_add_mono.
Qed.

Lemma scannedWorkspaces_reaches dir entries dirs entry :
  entry ∈ entries → d_isDirectory entry = true →
  startsWith (d_name entry) (js "workspace") = true →
  join dir (d_name entry) ∈ scannedWorkspaces dir entries dirs.
Proof.
  intros Hin Hd Hs. eapply (foldl_reaches _ _ _ entry); [| |done].
  - intros acc b Hx. case_match; auto using set_add_mono.
  - intros acc. rewrite Hd, Hs. apply set_add_here.
Qed.

Lemma configuredWorkspaces_default config dirs w :
  prop (prop (prop (Some config) (js "agents")) (js "defaults"))
       (js "workspace") = Some (JString w) →
  trim w ≠ [] →
  replaceLeadingTilde w homedir ∈ configuredWorkspaces config dirs.
Proof.
  intros Hd Hw. unfold configuredWorkspaces. rewrite Hd. cbv zeta.
  pose proof (addWorkspace_here w dirs Hw) as Hin.
  repeat case_match; try done.
  apply foldl_mono; [|done]. intros acc a. apply addWorkspace_mono.
Qed.

Lemma configuredWorkspaces_agent config dirs agents agent w :
  prop (prop (Some config) (js "agents")) (js "list") = Some (JArray agents) →
  agent ∈ agents →
  prop (Some agent) (js "workspace") = Some (JString w) →
  trim w ≠ [] →
  replaceLeadingTilde w homedir ∈ configuredWorkspaces config dirs.
Proof.
  intros Hl Hin Hws Hw. unfold configuredWorkspaces. rewrite Hl. cbv zeta.
  eapply (foldl_reaches _ _ _ agent); [| |done].
  - intros acc b. apply addWorkspace_mono.
  - intros acc. rewrite Hws. by apply addWorkspace_here.
Qed.

(** What discovery returns, in terms of its two sources. *)
Lemma discovery_result fs :
  let openclawDir := join homedir (js ".openclaw") in
  ∃ d1 found,
    workspacesFromConfig openclawDir [] fs = Outcome (Ok d1) fs []
    ∧ workspacesFromScan openclawDir d1 fs = Outcome (Ok found) fs []
    ∧ resolveAllWorkspaceDirs fs
      = Outcome
          (Ok (if bool_decide (length found = 0)
               then set_add (join openclawDir (js "workspace")) found
               else found)) fs [].
Proof.
  intros openclawDir.
  assert (sound_set openclawDir []) as H0.
  { split; [apply NoDup_nil_2 | by intros d ?%elem_of_nil]. }
  destruct (workspacesFromConfig_run openclawDir [] fs H0) as (d1 & Hr1 & H1).
  destruct (workspacesFromScan_run openclawDir d1 fs H1) as (found & Hr2 & H2).
  exists d1, found. split; [done|]. split; [done|].
  unfold resolveAllWorkspaceDirs. fold openclawDir.
  rewrite bind_run, Hr1. cbn [res disk events].
  rewrite bind_run, Hr2. done.
Qed.

Lemma discovery_keeps_found fs x found base :
  x ∈ found →
  x ∈ (if bool_decide (length found = 0) then set_add base found else found).
Proof.
  intros Hx. case_bool_decide as Hl; [|done].
  apply nil_length_inv in Hl as ->. by apply elem_of_nil in Hx.
Qed.

End Complete.

(** X5: discovery misses no workspace.  When the configuration file is
    read and parsed, the default workspace and the workspace of every
    agent of the list appear in the result, with a leading [~]
    expanded, provided they are strings that are not blank; and every
    directory entry of the base directory whose name starts with
    [workspace] appears joined to the base directory. *)
Theorem discovery_complete `{Platform} (fs : disk_t) (dirs : list jsstring) :
  let openclawDir := join homedir (js ".openclaw") in
  res (resolveAllWorkspaceDirs fs) = Ok dirs →
  (∀ text config,
     fs !! join openclawDir (js "openclaw.json") = Some (File text) →
     JSON_parse text = Some config →
     (∀ w, prop (prop (prop (Some config) (js "agents")) (js "defaults"))
                (js "workspace") = Some (JString w) →
           trim w ≠ [] → replaceLeadingTilde w homedir ∈ dirs)
     ∧ (∀ agents agent w,
          prop (prop (Some config) (js "agents")) (js "list")
          = Some (JArray agents) →
          agent ∈ agents →
          prop (Some agent) (js "workspace") = Some (JString w) →
          trim w ≠ [] → replaceLeadingTilde w homedir ∈ dirs))
  ∧ (∀ entries entry,
       fs !! openclawDir = Some (Dir entries) →
       entry ∈ entries → d_isDirectory entry = true →
       startsWith (d_name entry) (js "workspace") = true →
       join openclawDir (d_name entry) ∈ dirs).
Proof.
  intros openclawDir Hres.
  destruct (discovery_result fs) as (d1 & found & Hr1 & Hr2 & Hr).
  fold openclawDir in Hr1, Hr2, Hr.
  rewrite Hr in Hres. injection Hres as <-.
  split.
  - intros text config Hc Hp.
    rewrite (workspacesFromConfig_parsed _ _ _ _ _ Hc Hp) in Hr1.
    injection Hr1 as <-.
    assert (∀ x, x ∈ configuredWorkspaces config [] → x ∈ found) as Hup.
    { intros x Hx. destruct (fs !! openclawDir) as [[c|entries|]|] eqn:Hd.
      - rewrite workspacesFromScan_unreadable in Hr2 by (rewrite Hd; done).
        by injection Hr2 as <-.
      - rewrite (workspacesFromScan_listed _ _ _ _ Hd) in Hr2.
        injection Hr2 as <-. by apply scannedWorkspaces_mono.
      - rewrite workspacesFromScan_unreadable in Hr2 by (rewrite Hd; done).
        by injection Hr2 as <-.
      - rewrite workspacesFromScan_unreadable in Hr2 by (rewrite Hd; done).
        by injection Hr2 as <-. }
    split.
    + intros w Hd Hw. apply discovery_keeps_found; [done|]. apply Hup.
      by apply configuredWorkspaces_default.
    + intros agents agent w Hl Hin Hws Hw.
      apply discovery_keeps_found; [done|]. apply Hup.
      by eapply configuredWorkspaces_agent.
  - intros entries entry Hd Hin Hdir Hname.
    rewrite (workspacesFromScan_listed _ _ _ _ Hd) in Hr2.
    injection Hr2 as <-. apply discovery_keeps_found; [done|].
    by apply scannedWorkspaces_reaches.
Qed.

Lemma discovery_complete_witness :
  js "work" ∈ [js "work"].
Proof.
  refine (proj1 (proj1 (discovery_complete (H:=demo) demo_disk_configured
            [js "work"] _) demo_config_text demo_config_value _ _)
            (js "work") _ _).
  - vm_compute. reflexivity.
  - vm_compute. reflexivity.
  - vm_compute. reflexivity.
  - vm_compute. reflexivity.
  - vm_compute. discriminate.
Defined.

(** ** Tilde expansion *)

Lemma getSubstitution_plain (matched before after repl : jsstring) :
  36%N ∉ repl → getSubstitution matched before after repl = repl.
Proof.
  induction repl as [|c r IH]; [done|].
  intros [Hc Hr]%not_elem_of_cons. cbn [getSubstitution].
  destruct (N.eqb_spec c 36) as [->|_]; [done|]. by rewrite IH.
Qed.

(** X6: [ws.replace(/^~/, homedir())] puts the home directory in place of
    a leading [~] when the home directory holds no [$]; a string that
    does not start with [~] is left alone, also when a [~] occurs
    further on. *)
Theorem tilde_expansion (home s rest : jsstring) :
  (36%N ∉ home → replaceLeadingTilde (126%N :: rest) home = home ++ rest)
  ∧ (head s ≠ Some 126%N → replaceLeadingTilde s home = s).
Proof.
  split.
  - intros Hhome. cbn [replaceLeadingTilde]. cbn.
    by rewrite getSubstitution_plain.
  - intros Hs. destruct s as [|c r]; [done|]. cbn [replaceLeadingTilde].
    destruct (N.eqb_spec c 126) as [->|_]; [by destruct Hs|done].
Qed.

Lemma tilde_expansion_witness :
  replaceLeadingTilde (js "~/w1") (js "/home/u") = js "/home/u" ++ js "/w1".
Proof.
  apply (proj1 (tilde_expansion (js "/home/u") [] (js "/w1"))).
  compute_done.
Defined.

(** A home directory that holds [$&] is not copied literally. *)
Example tilde_expansion_dollar :
  replaceLeadingTilde (js "~/w1") (js "/home/a$&b") = js "/home/a~b/w1".
Proof. reflexivity. Qed.

(** ** What the synchronisation pass emits *)

Section SyncEvents.
Context `{Platform}.
Implicit Types (fs : disk_t).







End SyncEvents.


(** X8: without a directory of templates the synchronisation pass does
    nothing: when [resources/context] is missing, is not a directory or
    cannot be listed, the run returns normally, leaves the disk as it
    is (no workspace directory is made) and at most logs. *)
Theorem sync_skips_without_templates `{Platform} (fs : disk_t) :
  (∀ entries,
     fs !! join getResourcesDir (js "context") ≠ Some (Dir entries)) →
  let run := ensureClawXContext fs in
  res run = Ok tt ∧ disk run = fs
  ∧ Forall (λ e, ∃ l msg, e = Logged l msg) (events run).
Proof.
  intros Hno. cbv zeta. rewrite ensureClawXContext_run. cbv zeta.
  destruct (fs !! join getResourcesDir (js "context")) as [[c|entries|]|];
    [|by destruct (Hno entries)|..]; repeat split; repeat constructor; eauto.
Qed.

Lemma sync_skips_without_templates_witness :
  let run := ensureClawXContext (H:=demo) demo_disk_configured in
  res run = Ok tt ∧ disk run = demo_disk_configured
  ∧ Forall (λ e, ∃ l msg, e = Logged l msg) (events run).
Proof.
  apply (sync_skips_without_templates (H:=demo) demo_disk_configured).
  intros entries. vm_compute. discriminate.
Defined.

Lemma targetName_when_only_suffix_witness :
  targetName (js "AGENTS.clawx.md") = suffixSubstitution (js "AGENTS.clawx.md").
Proof.
  apply (targetName_when_only_suffix (js "AGENTS.clawx.md")).
  - reflexivity.
  - vm_compute. lia.
Defined.

(** ** Paging of the usage history *)

Section Paging.
Import Dashboard.
Context {A : Type}.
Implicit Types (l : list A) (k n : nat).

Lemma usageTotalPages_bounds l :
  (1 ≤ usageTotalPages l)%Z
  ∧ (Z.of_nat (length l) ≤ 5 * usageTotalPages l)%Z
  ∧ (l ≠ [] → 5 * (usageTotalPages l - 1) < Z.of_nat (length l))%Z.
Proof.
  unfold usageTotalPages, ceilDiv, usagePageSize.
  set (n := Z.of_nat (length l)).
  assert (0 ≤ n)%Z as Hn by lia.
  pose proof (Z.div_mod (- n) 5 ltac:(lia)) as Hdm.
  pose proof (Z.mod_pos_bound (- n) 5 ltac:(lia)) as Hmod.
  split; [lia|]. split; [lia|].
  intros Hne. assert (0 < n)%Z by (destruct l; [done|simpl in *; lia]). lia.
Qed.

(** A page that exists is the chunk of five entries at its offset. *)
Lemma page_chunk l k :
  1 ≤ k → (Z.of_nat k ≤ usageTotalPages l)%Z →
  pagedUsageHistory l (Z.of_nat k) = take 5 (drop (5 * (k - 1)) l).
Proof.
  intros Hk Hle. unfold pagedUsageHistory, safeUsagePage, arraySlice.
  rewrite Z.min_l by lia. unfold usagePageSize.
  destruct (Z.ltb_spec ((Z.of_nat k - 1) * 5) 0) as [?|_]; [lia|].
  destruct (Z.ltb_spec (Z.of_nat k * 5) 0) as [?|_]; [lia|].
  destruct (decide (5 * (k - 1) ≤ length l)) as [Hin|Hout].
  - rewrite (Z.min_l ((Z.of_nat k - 1) * 5)) by lia.
    replace (Z.to_nat ((Z.of_nat k - 1) * 5)) with (5 * (k - 1)) by lia.
    destruct (decide (5 * k ≤ length l)) as [Hin'|Hout'].
    + rewrite Z.min_l by lia. f_equal. lia.
    + rewrite Z.min_r by lia.
      rewrite !take_ge; [done|rewrite length_drop; lia..].
  - rewrite !Z.min_r by lia.
    rewrite Z.sub_diag, Nat2Z.id. rewrite !drop_ge by lia. done.
Qed.

Lemma chunks_concat n l :
  length l ≤ 5 * n →
  concat ((λ i, take 5 (drop (5 * i) l)) <$> seq 0 n) = l.
Proof.
  revert l. induction n as [|n IH]; intros l Hl.
  - symmetry. apply nil_length_inv. lia.
  - rewrite <-cons_seq, <-fmap_S_seq, fmap_cons, <-list_fmap_compose.
    cbn [concat]. rewrite Nat.mul_0_r, drop_0.
    transitivity (take 5 l ++ drop 5 l); [|apply take_drop]. f_equal.
    rewrite <-(IH (drop 5 l)) by (rewrite length_drop; lia).
    f_equal. apply list_fmap_ext. intros _ i _. cbn.
    rewrite drop_drop. do 2 f_equal. lia.
Qed.

End Paging.

(** X16: the pages of the usage history are a partition of it: put end
    to end, pages 1 to [usageTotalPages] give back the filtered history,
    each entry once and in order. *)
Theorem usage_pages_partition {A} (filteredUsageHistory : list A) :
  concat ((λ k, Dashboard.pagedUsageHistory filteredUsageHistory (Z.of_nat k))
            <$> seq 1 (Z.to_nat (Dashboard.usageTotalPages filteredUsageHistory)))
  = filteredUsageHistory.
Proof.
  destruct (usageTotalPages_bounds filteredUsageHistory) as (H1 & H2 & _).
  set (T := Z.to_nat (Dashboard.usageTotalPages filteredUsageHistory)).
  transitivity
    (concat ((λ i, take 5 (drop (5 * i) filteredUsageHistory)) <$> seq 0 T));
    [|apply chunks_concat; lia].
  rewrite <-fmap_S_seq, <-list_fmap_compose. f_equal.
  apply list_fmap_ext. intros idx i [-> Hlt]%lookup_seq. cbn.
  rewrite page_chunk by lia. do 3 f_equal. lia.
Qed.

(** X17: for a page number that is at least 1, as the page buttons keep
    it, the page shown holds at most five entries, holds at least one
    when the history is not empty, and is the last page when the number
    is beyond the last page; the buttons keep the number between 1 and
    the number of pages. *)
Theorem usage_page_shown {A} (filteredUsageHistory : list A) (usagePage : Z) :
  (1 ≤ usagePage)%Z →
  let total := Dashboard.usageTotalPages filteredUsageHistory in
  let page := Dashboard.pagedUsageHistory filteredUsageHistory usagePage in
  length page ≤ 5
  ∧ (filteredUsageHistory ≠ [] → page ≠ [])
  ∧ ((total ≤ usagePage)%Z →
     page = Dashboard.pagedUsageHistory filteredUsageHistory total)
  ∧ (1 ≤ Dashboard.previousPage usagePage ≤ usagePage)%Z
  ∧ ((usagePage ≤ total)%Z →
     (1 ≤ Dashboard.nextPage filteredUsageHistory usagePage ≤ total)%Z).
Proof.
  intros Hpage total page.
  destruct (usageTotalPages_bounds filteredUsageHistory) as (H1 & H2 & H3).
  fold total in H1, H2, H3.
  assert (∃ k, 1 ≤ k ∧ (Z.of_nat k ≤ total)%Z
               ∧ Z.of_nat k = Z.min usagePage total
               ∧ page = take 5 (drop (5 * (k - 1)) filteredUsageHistory))
    as (k & Hk1 & Hk2 & Hk3 & Hpg).
  { exists (Z.to_nat (Z.min usagePage total)).
    split; [lia|]. split; [lia|]. split; [lia|].
    rewrite <-page_chunk by (fold total; lia).
    unfold page, Dashboard.pagedUsageHistory, Dashboard.safeUsagePage.
    fold total. rewrite Z2Nat.id by lia.
    by rewrite (Z.min_l (Z.min usagePage total)) by lia. }
  split; [|split; [|split; [|split]]].
  - rewrite Hpg, length_take. lia.
  - intros Hne Hnil. specialize (H3 Hne). rewrite Hpg in Hnil.
    apply (f_equal length) in Hnil.
    rewrite length_take, length_drop in Hnil. cbn [length] in Hnil. lia.
  - intros Hbeyond. unfold page, Dashboard.pagedUsageHistory,
      Dashboard.safeUsagePage. fold total.
    by rewrite Z.min_r, Z.min_id by lia.
  - unfold Dashboard.previousPage. lia.
  - intros Hle. unfold Dashboard.nextPage. fold total. lia.
Qed.

Lemma usage_page_shown_witness :
  length (Dashboard.pagedUsageHistory [1; 2; 3; 4; 5; 6; 7] 9%Z) ≤ 5.
Proof.
  apply (usage_page_shown [1; 2; 3; 4; 5; 6; 7] 9%Z). lia.
Defined.

(** ** Session ids *)

Section SessionIds.
Import TokenUsage.
Implicit Types (s m : jsstring).

Lemma endsWith_spec s m : endsWith s m = true ↔ ∃ a, s = a ++ m.
Proof.
  unfold endsWith. rewrite startsWith_spec. split.
  - intros [b Hb]. exists (reverse b).
    apply (f_equal reverse) in Hb.
    by rewrite reverse_involutive, reverse_app, reverse_involutive in Hb.
  - intros [a ->]. exists (reverse a). by rewrite reverse_app.
Qed.

Lemma sessionIdOf_unfold s :
  sessionIdOf s
  = if bool_decide (s = js ".jsonl") then []
    else match s with [] => [] | c :: r => c :: sessionIdOf r end.
Proof. by destruct s. Qed.

Lemma sessionIdOf_app a : sessionIdOf (a ++ js ".jsonl") = a.
Proof.
  induction a as [|c a IH]; [done|].
  rewrite sessionIdOf_unfold.
  rewrite bool_decide_eq_false_2.
  - simpl. by rewrite IH.
  - intros Heq. apply (f_equal length) in Heq.
    rewrite length_app in Heq. simpl in Heq. lia.
Qed.

Lemma sessionIdOf_other s : endsWith s (js ".jsonl") = false → sessionIdOf s = s.
Proof.
  induction s as [|c s IH]; intros Hs; [done|].
  rewrite sessionIdOf_unfold. case_bool_decide as Heq.
  - rewrite Heq in Hs. done.
  - f_equal. apply IH. destruct (endsWith s (js ".jsonl")) eqn:He; [|done].
    apply endsWith_spec in He as [a ->].
    assert (endsWith (c :: a ++ js ".jsonl") (js ".jsonl") = true) as Ht.
    { apply endsWith_spec. by exists (c :: a). }
    congruence.
Qed.

End SessionIds.

(** X18: the session id of a listed session file is the file name
    without its [.jsonl] extension: putting the extension back gives the
    file name, so two different session files never share a session id;
    a name that does not end in [.jsonl] is left as it is. *)
Theorem sessionId_round_trip (fileName other : jsstring) :
  (TokenUsage.isSessionFile fileName = true →
   TokenUsage.sessionIdOf fileName ++ js ".jsonl" = fileName)
  ∧ (TokenUsage.isSessionFile fileName = true →
     TokenUsage.isSessionFile other = true →
     TokenUsage.sessionIdOf fileName = TokenUsage.sessionIdOf other →
     fileName = other)
  ∧ (endsWith fileName (js ".jsonl") = false →
     TokenUsage.sessionIdOf fileName = fileName).
Proof.
  assert (∀ f, TokenUsage.isSessionFile f = true →
               TokenUsage.sessionIdOf f ++ js ".jsonl" = f) as Hrt.
  { intros f Hf. unfold TokenUsage.isSessionFile in Hf.
    apply negb_true_iff, orb_false_iff in Hf as [Hf _].
    apply negb_false_iff, endsWith_spec in Hf as [a ->].
    by rewrite sessionIdOf_app. }
  split; [apply Hrt|]. split.
  - intros H1 H2 Heq. rewrite <-(Hrt _ H1), <-(Hrt _ H2). by rewrite Heq.
  - apply sessionIdOf_other.
Qed.

Lemma sessionId_round_trip_witness :
  TokenUsage.sessionIdOf (js "a.jsonl.jsonl") ++ js ".jsonl"
  = js "a.jsonl.jsonl".
Proof.
  apply (proj1 (sessionId_round_trip (js "a.jsonl.jsonl") [])). reflexivity.
Defined.


Lemma normalizeProxyServer_result_witness :
  Proxy.normalizeProxyServer (js " 127.0.0.1:7890 ")
  = js "http://" ++ trim (js " 127.0.0.1:7890 ").
Proof.
  apply (proj2 (proj2 (proj2
    (normalizeProxyServer_result (js " 127.0.0.1:7890 "))))).
  - vm_compute. discriminate.
  - reflexivity.
Defined.
